(** * A WebSocket relay with bearer-token gatekeeping: model and properties

    Shallow embedding of [backend/proxy.py]: the relay loop [proxy_task], the
    session orchestrator [create_proxy] and the gatekeeper [handle_client].

    The program is effectful: it reads from and writes to two WebSocket
    connections, dials an upstream endpoint, prints diagnostics and handles
    exceptions.  Every function is translated into a small monad that threads
    the state of the two connections, records the observable actions in a
    trace and carries a raised exception until a handler takes it.  What the
    outside world does (which messages arrive, which writes fail, whether the
    dial succeeds, how the event loop interleaves the two relay tasks) is an
    explicit argument, so that every statement quantifies over it. *)

From Stdlib Require Import QArith Ascii String.
From stdpp Require Import gmap strings list pretty.

Set Warnings "-register-all".
Set Default Proof Using "Type".

Local Open Scope string_scope.
Local Open Scope list_scope.

(** ** Decoded JSON documents

    What [json.loads] returns: [None], a [bool], an [int], a [float], a
    [str], a [list] or a [dict] with string keys.  A [dict] is a finite map:
    keys are unique and equality ignores insertion order.  A float is kept as
    the bit pattern of its IEEE-754 double; no statement below looks inside. *)

Inductive json : Type :=
| JNull
| JBool (b : bool)
| JInt (n : Z)
| JFloat (bits : Z)
| JStr (s : string)
| JArr (xs : list json)
| JObj (fields : gmap string json).

(** ** Exceptions

    The exceptions that the operations used by the program raise.  All of
    them derive from Python's [Exception], so a handler [except Exception]
    takes every one of them; task cancellation is outside the model. *)

Inductive exn : Type :=
| ConnectionClosed            (* websockets.exceptions.ConnectionClosed *)
| TimeoutError                (* asyncio.wait_for ran out of time *)
| JSONDecodeError             (* json.loads on a malformed document *)
| TypeError                   (* operator applied to a value of the wrong type *)
| KeyError                    (* dict indexed with an absent key *)
| InvalidHandshake            (* the upstream endpoint rejected the dial *)
| OSError                     (* network failure *)
| OtherError (what : string). (* any other Exception *)

Definition is_ConnectionClosed (e : exn) : bool :=
  match e with ConnectionClosed => true | _ => false end.

(** ** The outside world *)

(** The two connections of a session. *)
Inductive role : Type := Client | Upstream.

#[global] Instance role_eq_dec : EqDecision role.
Proof. solve_decision. Defined.

(** What the first [recv()] on the client connection does: a message arrives
    after some delay (in seconds), nothing ever arrives, or the call raises. *)
Inductive first_recv : Type :=
| Arrives (delay : Q) (payload : string)
| Silent
| RecvRaises (e : exn).

(** One turn of [async for message in websocket]: a message, or an exception.
    The end of the script is the normal end of the iteration. *)
Inductive read_outcome : Type :=
| Yield (message : string)
| Raises (e : exn).

(** What one [send] does. *)
Inductive send_outcome : Type :=
| Sent
| SendFail (e : exn).

(** What [websockets.connect] does. *)
Inductive dial_outcome : Type :=
| DialOk
| DialFail (e : exn).

(** Observable actions, in program order. *)
Inductive event : Type :=
| Log (line : string)                     (* print("...") *)
| LogExn (prefix : string) (e : exn)    (* print(f"<prefix>{e}") *)
| LogType (prefix : string) (e : exn)   (* print(f"<prefix>{type(e)}") *)
| LogCause (prefix : string) (e : exn)  (* print(f"<prefix>{e.__cause__}") *)
| Recv (from : role) (payload : string)   (* a message was read *)
| Connect (url : string) (headers : list (string * string))
| Send (to : role) (payload : string)     (* a message was written *)
| Close (code : Z) (reason : string)      (* client_websocket.close(...) *)
| Opened                                  (* the upstream connection is
                                             established *)
| Release                                 (* the upstream connection is closed
                                             on leaving [async with] *)
| TaskDone (source : role).               (* the relay task reading from
                                             [source] has returned *)

(** The state threaded through the program: what the successive writes to
    each connection will do.  Past the end of a list every write succeeds. *)
Record conn : Type := Conn {
  to_client : list send_outcome;
  to_upstream : list send_outcome
}.

Definition pending (to : role) (c : conn) : list send_outcome :=
  match to with Client => to_client c | Upstream => to_upstream c end.

Definition consume (to : role) (c : conn) : conn :=
  match to with
  | Client => {| to_client := tail (to_client c); to_upstream := to_upstream c |}
  | Upstream => {| to_client := to_client c; to_upstream := tail (to_upstream c) |}
  end.

(** ** The monad: state, trace and exceptions *)

Inductive result (A : Type) : Type :=
| Val (a : A)
| Exc (e : exn).
Arguments Val {A} a.
Arguments Exc {A} e.

Definition M (A : Type) : Type := conn -> list event * conn * result A.

Definition ret {A} (a : A) : M A := fun c => ([], c, Val a).

Definition bind {A B} (m : M A) (k : A -> M B) : M B :=
  fun c =>
    match m c with
    | (t1, c1, Val a) =>
        match k a c1 with (t2, c2, r) => (t1 ++ t2, c2, r) end
    | (t1, c1, Exc e) => (t1, c1, Exc e)
    end.

Definition raise {A} (e : exn) : M A := fun c => ([], c, Exc e).

Definition emit (ev : event) : M unit := fun c => ([ev], c, Val tt).

(** [try: m / except Exception as e: h e].  A handler that must let some
    exceptions through re-raises them. *)
Definition try_except {A} (m : M A) (h : exn -> M A) : M A :=
  fun c =>
    match m c with
    | (t1, c1, Val a) => (t1, c1, Val a)
    | (t1, c1, Exc e) =>
        match h e c1 with (t2, c2, r) => (t1 ++ t2, c2, r) end
    end.

Declare Scope prog_scope.
Delimit Scope prog_scope with prog.
Notation "x <- m ;; k" := (bind m (fun x => k))
  (at level 100, m at next level, right associativity) : prog_scope.
Notation "m ;; k" := (bind m (fun _ => k))
  (at level 100, right associativity) : prog_scope.
Local Open Scope prog_scope.

Definition trace_of {A} (x : list event * conn * result A) : list event := x.1.1.
Definition conn_of {A} (x : list event * conn * result A) : conn := x.1.2.
Definition result_of {A} (x : list event * conn * result A) : result A := x.2.

(** ** Constants of the module *)

Definition HOST : string := "us-central1-aiplatform.googleapis.com".
Definition SERVICE_URL : string :=
  "wss://" +:+ HOST +:+
  "/ws/google.cloud.aiplatform.v1beta1.LlmBidiService/BidiGenerateContent".

(** The [timeout=5.0] of the first receive, in seconds. *)
Definition AUTH_TIMEOUT : Q := 5.0.

(** ** Primitive operations *)

(** [await websocket.send(payload)]. *)
Definition ws_send (to : role) (payload : string) : M unit :=
  fun c =>
    match head (pending to c) with
    | Some (SendFail e) => ([], consume to c, Exc e)
    | _ => ([Send to payload], consume to c, Val tt)
    end.

(** [await client_websocket.close(code=..., reason=...)]. *)
Definition ws_close (code : Z) (reason : string) : M unit :=
  emit (Close code reason).

(** [await asyncio.wait_for(client_websocket.recv(), timeout)]: the message
    when it arrives within [timeout], [TimeoutError] when it does not. *)
Definition wait_for_recv (timeout : Q) (r : first_recv) : M string :=
  match r with
  | Arrives delay payload =>
      if Qle_bool delay timeout
      then (emit (Recv Client payload) ;; ret payload)
      else raise TimeoutError
  | Silent => raise TimeoutError
  | RecvRaises e => raise e
  end.

(** Python's substring test on [str]. *)
Fixpoint str_contains (needle hay : string) : bool :=
  String.prefix needle hay ||
  match hay with
  | EmptyString => false
  | String _ hay' => str_contains needle hay'
  end.

(** Python's membership test of a [str] in a [list]: some element is equal
    to it, that is, is the same string. *)
Definition list_contains_str (key : string) (xs : list json) : bool :=
  existsb (fun x => match x with
                    | JStr s => bool_decide (s = key)
                    | _ => false
                    end) xs.

(** [key in container] for a [str] key: key membership on a dict, element
    equality on a list, substring on a str; the other values are not
    containers. *)
Definition py_contains (key : string) (container : json) : M bool :=
  match container with
  | JObj fields => ret (bool_decide (is_Some (fields !! key)))
  | JArr xs => ret (list_contains_str key xs)
  | JStr s => ret (str_contains key s)
  | _ => raise TypeError
  end.

(** [container[key]] for a [str] key: only a dict can be indexed so. *)
Definition py_getitem (container : json) (key : string) : M json :=
  match container with
  | JObj fields =>
      match fields !! key with
      | Some v => ret v
      | None => raise KeyError
      end
  | _ => raise TypeError
  end.

(** ** A reference codec

    A reader and a writer for the fragment of JSON made of [null], the
    booleans, the integers, strings (with the escapes of the quote and of
    the backslash), arrays and objects.  They stand for [json.loads] and
    [json.dumps] when the model is run on concrete documents; the writer
    uses the separators of [json.dumps].  Floats are outside the fragment:
    the reader never produces one and the writer gives [null] for one. *)

Module MiniJson.

Definition dquote : ascii := ascii_of_nat 34.
Definition backslash : ascii := ascii_of_nat 92.

Fixpoint escape (s : string) : string :=
  match s with
  | EmptyString => EmptyString
  | String a s' =>
      if bool_decide (a = dquote) || bool_decide (a = backslash)
      then String backslash (String a (escape s'))
      else String a (escape s')
  end.

Definition quote (s : string) : string :=
  String dquote (escape s +:+ String dquote EmptyString).

Fixpoint join (sep : string) (parts : list string) : string :=
  match parts with
  | [] => ""
  | [p] => p
  | p :: ps => p +:+ sep +:+ join sep ps
  end.

Fixpoint dumps (j : json) : string :=
  match j with
  | JNull => "null"
  | JBool true => "true"
  | JBool false => "false"
  | JInt n => pretty n
  | JFloat _ => "null"
  | JStr s => quote s
  | JArr xs => "[" +:+ join ", " (map dumps xs) +:+ "]"
  | JObj fields =>
      "{" +:+
      join ", "
        (map_fold (fun k v acc => (quote k +:+ ": " +:+ dumps v) :: acc)
           [] fields) +:+
      "}"
  end.

Definition is_space (a : ascii) : bool :=
  bool_decide (a = " "%char) || bool_decide (a = ascii_of_nat 9) ||
  bool_decide (a = ascii_of_nat 10) || bool_decide (a = ascii_of_nat 13).

Fixpoint skip_ws (s : string) : string :=
  match s with
  | String a s' => if is_space a then skip_ws s' else s
  | EmptyString => s
  end.

(** [expect lit s]: the rest of [s] after the literal [lit]. *)
Fixpoint expect (lit s : string) : option string :=
  match lit, s with
  | EmptyString, _ => Some s
  | String a lit', String b s' =>
      if bool_decide (a = b) then expect lit' s' else None
  | String _ _, EmptyString => None
  end.

(** The characters of a string literal after its opening quote. *)
Fixpoint read_string (s : string) : option (string * string) :=
  match s with
  | EmptyString => None
  | String a s' =>
      if bool_decide (a = dquote) then Some (EmptyString, s')
      else if bool_decide (a = backslash) then
        match s' with
        | String b s'' =>
            if bool_decide (b = dquote) || bool_decide (b = backslash)
            then '(body, rest) ← read_string s'' ; Some (String b body, rest)
            else None
        | EmptyString => None
        end
      else '(body, rest) ← read_string s' ; Some (String a body, rest)
  end.

Definition digit_of (a : ascii) : option Z :=
  let n := Z.of_nat (nat_of_ascii a) in
  if bool_decide (48 ≤ n ≤ 57)%Z then Some (n - 48)%Z else None.

Fixpoint read_digits (acc : Z) (s : string) : Z * string :=
  match s with
  | String a s' =>
      match digit_of a with
      | Some d => read_digits (10 * acc + d) s'
      | None => (acc, s)
      end
  | EmptyString => (acc, s)
  end.

Definition read_int (s : string) : option (Z * string) :=
  let '(neg, s1) :=
    match s with
    | String "-" s' => (true, s')
    | _ => (false, s)
    end in
  match s1 with
  | String a _ =>
      match digit_of a with
      | Some _ =>
          let '(n, rest) := read_digits 0 s1 in
          Some (if neg : bool then (- n)%Z else n, rest)
      | None => None
      end
  | EmptyString => None
  end.

(** A later binding of a key replaces an earlier one, as in a [dict]. *)
Definition make_object (members : list (string * json)) : json :=
  JObj (foldl (fun m kv => <[kv.1 := kv.2]> m) ∅ members).

Fixpoint read_value (fuel : nat) (s : string) : option (json * string) :=
  match fuel with
  | O => None
  | S fuel' =>
      match skip_ws s with
      | String "n" _ => rest ← expect "null" (skip_ws s) ; Some (JNull, rest)
      | String "t" _ => rest ← expect "true" (skip_ws s) ; Some (JBool true, rest)
      | String "f" _ =>
          rest ← expect "false" (skip_ws s) ; Some (JBool false, rest)
      | String "[" s' =>
          match skip_ws s' with
          | String "]" rest => Some (JArr [], rest)
          | _ => '(xs, rest) ← read_elements fuel' s' ; Some (JArr xs, rest)
          end
      | String "{" s' =>
          match skip_ws s' with
          | String "}" rest => Some (make_object [], rest)
          | _ =>
              '(members, rest) ← read_members fuel' s' ;
              Some (make_object members, rest)
          end
      | String a s' =>
          if bool_decide (a = dquote)
          then '(body, rest) ← read_string s' ; Some (JStr body, rest)
          else '(n, rest) ← read_int (skip_ws s) ; Some (JInt n, rest)
      | EmptyString => None
      end
  end
with read_elements (fuel : nat) (s : string) : option (list json * string) :=
  match fuel with
  | O => None
  | S fuel' =>
      '(x, s1) ← read_value fuel' s ;
      match skip_ws s1 with
      | String "]" rest => Some ([x], rest)
      | String "," s2 =>
          '(xs, rest) ← read_elements fuel' s2 ; Some (x :: xs, rest)
      | _ => None
      end
  end
with read_members (fuel : nat) (s : string)
  : option (list (string * json) * string) :=
  match fuel with
  | O => None
  | S fuel' =>
      match skip_ws s with
      | String a s0 =>
          if bool_decide (a = dquote) then
            '(k, s1) ← read_string s0 ;
            match skip_ws s1 with
            | String ":" s2 =>
                '(v, s3) ← read_value fuel' s2 ;
                match skip_ws s3 with
                | String "}" rest => Some ([(k, v)], rest)
                | String "," s4 =>
                    '(members, rest) ← read_members fuel' s4 ;
                    Some ((k, v) :: members, rest)
                | _ => None
                end
            | _ => None
            end
          else None
      | EmptyString => None
      end
  end.

Definition loads (s : string) : option json :=
  '(j, rest) ← read_value (S (String.length s)) s ;
  match skip_ws rest with
  | EmptyString => Some j
  | _ => None
  end.

End MiniJson.

(** ** The program *)

(** Loop control: what the body of the [async for] asks for. *)
Inductive control : Type := Next | Break.

(** A relay coroutine between two suspension points. *)
Inductive task : Type :=
| AtNext (script : list read_outcome)
    (* waiting for the next message; [script] is what the source will do *)
| AtSend (payload : string) (rest : list read_outcome)
    (* waiting for [send(payload)] to complete *)
| Finished.

(** Everything the outside world decides for one client connection. *)
Record world : Type := World {
  first : first_recv;                       (* the first [recv()] *)
  dial : dial_outcome;                      (* [websockets.connect] *)
  client_messages : list read_outcome;      (* iteration over the client *)
  upstream_messages : list read_outcome;    (* iteration over the upstream *)
  schedule : list bool                      (* the event loop's choices: [true]
                                               runs the client->server task *)
}.

(** ** A concrete session

    The scenario of the specification: the client authenticates with the
    token [abc123] and sends [{"x": 1}], the upstream sends [{"y": 2}].
    The documents are written with [MiniJson.quote] around their strings. *)

Module Scenario.

Definition auth_message : string :=
  "{" +:+ MiniJson.quote "bearer_token" +:+ ": " +:+
  MiniJson.quote "abc123" +:+ "}".

Definition client_unit : string := "{" +:+ MiniJson.quote "x" +:+ ": 1}".

Definition upstream_unit : string := "{" +:+ MiniJson.quote "y" +:+ ": 2}".

(** A message without the token, and messages that are not objects. *)
Definition anonymous_message : string :=
  "{" +:+ MiniJson.quote "user" +:+ ": " +:+ MiniJson.quote "alice" +:+ "}".

Definition array_message : string := "[]".

Definition number_message : string := "42".

Definition garbage_message : string := "{not json".

(** The text of a value that is not a string; it plays no part in the
    scenario, whose token is a string. *)
Definition show : json -> string := MiniJson.dumps.

(** The first message is [payload] and arrives after one second; the dial
    succeeds; one unit comes from each side. *)
Definition session (payload : string) : world :=
  {| first := Arrives 1 payload;
     dial := DialOk;
     client_messages := [Yield client_unit];
     upstream_messages := [Yield upstream_unit];
     schedule := [true; false; true] |}.

(** Every write succeeds. *)
Definition healthy : conn := {| to_client := []; to_upstream := [] |}.

(** The first write to the upstream fails with an error that is not a
    closed connection. *)
Definition flaky : conn :=
  {| to_client := [];
     to_upstream := [SendFail (OtherError "write failed")] |}.

End Scenario.

(** ** Failures

    The same session when the upstream endpoint cannot be reached, and a
    connection state in which the upstream is closed at the first write. *)

Module Outage.

Definition unreachable (payload : string) : world :=
  {| first := Arrives 1 payload;
     dial := DialFail OSError;
     client_messages := [Yield Scenario.client_unit];
     upstream_messages := [Yield Scenario.upstream_unit];
     schedule := [] |}.

Definition closed_upstream : conn :=
  {| to_client := []; to_upstream := [SendFail ConnectionClosed] |}.

End Outage.

Section Proxy.

(** The [json] module and [str()] of the Python library are not part of the
    program; the model takes them as they are.  [loads] is [json.loads]
    ([None] when it raises), [dumps] is [json.dumps], [py_repr] is the text
    Python's string formatting gives for a value that is not a [str]. *)
Variable loads : string -> option json.
Variable dumps : json -> string.
Variable py_repr : json -> string.

Definition json_loads (message : string) : M json :=
  match loads message with
  | Some data => ret data
  | None => raise JSONDecodeError
  end.

(** [f"{value}"]: a [str] is inserted as it is. *)
Definition py_format (value : json) : string :=
  match value with
  | JStr s => s
  | _ => py_repr value
  end.

(** *** [proxy_task] *)

(** The handlers of the inner [try] (around one message). *)
Definition inner_handler (e : exn) : M control :=
  if is_ConnectionClosed e then ret Break
  else (emit (LogExn "Error: " e) ;; ret Next).

(** The handlers of the outer [try] (around the loop). *)
Definition outer_handler (e : exn) : M unit :=
  if is_ConnectionClosed e then ret tt
  else emit (LogExn "Error: " e).

(** The body of the loop for one message. *)
Definition relay_body (target : role) (message : string) : M control :=
  try_except
    (data <- json_loads message ;;
     ws_send target (dumps data) ;;
     ret Next)
    inner_handler.

(** [async for message in source_websocket: ...]. *)
Fixpoint relay_loop (source target : role) (script : list read_outcome)
  : M unit :=
  match script with
  | [] => ret tt
  | Raises e :: _ => raise e
  | Yield message :: rest =>
      emit (Recv source message) ;;
      c <- relay_body target message ;;
      match c with
      | Break => ret tt
      | Next => relay_loop source target rest
      end
  end.

Definition proxy_task (source target : role) (script : list read_outcome)
    (name : string) : M unit :=
  try_except (relay_loop source target script) outer_handler.

(** *** The relay as a task of the event loop

    The same coroutine cut at its two [await]s, so that the event loop can
    interleave two of them.  [task_advance] runs the code between one
    suspension and the next inside the inner [try]; [None] is the end of the
    loop.  [task_step] puts the outer [try] around it. *)

Definition task_advance (source target : role) (t : task) : M (option task) :=
  match t with
  | AtNext [] => ret None
  | AtNext (Raises e :: _) => raise e
  | AtNext (Yield message :: rest) =>
      emit (Recv source message) ;;
      try_except
        (data <- json_loads message ;;
         ret (Some (AtSend (dumps data) rest)))
        (fun e =>
           c <- inner_handler e ;;
           ret (match c with Break => None | Next => Some (AtNext rest) end))
  | AtSend payload rest =>
      c <- try_except (ws_send target payload ;; ret Next) inner_handler ;;
      ret (match c with Break => None | Next => Some (AtNext rest) end)
  | Finished => ret None
  end.

Definition task_step (source target : role) (t : task) : M task :=
  r <- try_except (task_advance source target t)
         (fun e => outer_handler e ;; ret None) ;;
  match r with
  | Some t' => ret t'
  | None => emit (TaskDone source) ;; ret Finished
  end.

(** The number of steps a task can still take. *)
Definition task_size (t : task) : nat :=
  match t with
  | AtNext script => 2 * length script + 1
  | AtSend _ rest => 2 * length rest + 2
  | Finished => 0
  end.

Definition is_finished (t : task) : bool :=
  match t with Finished => true | _ => false end.

(** [await asyncio.gather(a, b)]: the event loop runs the two tasks, one
    step at a time in the order the schedule gives, until both have
    returned; an exception that leaves a task is raised at once in the
    caller.  [a] is the client->server task, [b] the server->client one.
    The fuel is the number of steps left; [gather] gives exactly enough. *)
Fixpoint gather_loop (fuel : nat) (sched : list bool) (a b : task) : M unit :=
  if is_finished a && is_finished b then ret tt
  else
    match fuel with
    | 0 => ret tt
    | S fuel' =>
        if negb (is_finished a) && (hd true sched || is_finished b)
        then (a' <- task_step Client Upstream a ;;
              gather_loop fuel' (tail sched) a' b)
        else (b' <- task_step Upstream Client b ;;
              gather_loop fuel' (tail sched) a b')
    end.

Definition gather (sched : list bool) (a b : task) : M unit :=
  gather_loop (task_size a + task_size b) sched a b.

(** *** [create_proxy] *)

(** The three diagnostic lines of both handlers; every exception has a
    [__cause__] attribute, so the third is always printed. *)
Definition log_failure (prefix : string) (e : exn) : M unit :=
  emit (LogExn prefix e) ;;
  emit (LogType "Error type: " e) ;;
  emit (LogCause "Caused by: " e).

(** [async with websockets.connect(url, additional_headers=headers) as ...]:
    when the dial fails the body does not run; when it succeeds the
    connection is closed on leaving the block, however the body ends. *)
Definition async_with_connect {A} (url : string)
    (headers : list (string * string)) (d : dial_outcome) (body : M A) : M A :=
  emit (Connect url headers) ;;
  match d with
  | DialFail e => raise e
  | DialOk =>
      emit Opened ;;
      fun c => match body c with (t, c', r) => (t ++ [Release], c', r) end
  end.

Definition create_proxy (w : world) (bearer_token : json) : M unit :=
  let headers :=
    [ ("Content-Type", "application/json");
      ("Authorization", "Bearer " +:+ py_format bearer_token) ] in
  try_except
    (async_with_connect SERVICE_URL headers (dial w)
       (try_except
          (gather (schedule w)
             (AtNext (client_messages w)) (AtNext (upstream_messages w)))
          (log_failure "Task error: ")))
    (log_failure "Proxy connection error: ").

(** *** [handle_client] *)

Definition handle_client (w : world) : M unit :=
  emit (Log "New connection...") ;;
  try_except
    (auth_message <- wait_for_recv AUTH_TIMEOUT (first w) ;;
     auth_data <- json_loads auth_message ;;
     present <- py_contains "bearer_token" auth_data ;;
     if present : bool then
       bearer_token <- py_getitem auth_data "bearer_token" ;;
       create_proxy w bearer_token
     else
       ws_close 1008 "Bearer token missing")
    (fun e =>
       emit (LogExn "Error: " e) ;;
       ws_close 1011 "Internal error").



(** ** Reading traces *)

(** The payloads written to a connection, in order. *)
Definition sent_to (to : role) (t : list event) : list string :=
  omap (fun ev =>
          match ev with
          | Send to' payload =>
              if bool_decide (to' = to) then Some payload else None
          | _ => None
          end) t.

(** The events that a relay task produces. *)
Definition relay_event (ev : event) : bool :=
  match ev with
  | Recv _ _ | Send _ _ | LogExn _ _ | TaskDone _ => true
  | _ => false
  end.

(** Whether the upstream connection is held after a trace, given whether it
    was held before. *)
Fixpoint upstream_held (held : bool) (t : list event) : bool :=
  match t with
  | [] => held
  | Opened :: t' => upstream_held true t'
  | Release :: t' => upstream_held false t'
  | _ :: t' => upstream_held held t'
  end.

(** [interleaving l1 l2 l]: [l] merges [l1] and [l2], keeping the order of
    each. *)
Inductive interleaving {A : Type} : list A -> list A -> list A -> Prop :=
| interleaving_nil : interleaving [] [] []
| interleaving_left x l1 l2 l :
    interleaving l1 l2 l -> interleaving (x :: l1) l2 (x :: l)
| interleaving_right x l1 l2 l :
    interleaving l1 l2 l -> interleaving l1 (x :: l2) (x :: l).

(** What a suspended task still has to do, as one piece of sequential code:
    the rest of [proxy_task] from that point on. *)
Definition resume (source target : role) (t : task) : M unit :=
  match t with
  | AtNext script => proxy_task source target script ""
  | AtSend payload rest =>
      try_except
        (c <- try_except (ws_send target payload ;; ret Next) inner_handler ;;
         match c with
         | Break => ret tt
         | Next => relay_loop source target rest
         end)
        outer_handler
  | Finished => ret tt
  end.

(** The events a task still has to produce when it runs alone. *)
Definition remaining (source target : role) (t : task) (c : conn)
  : list event :=
  if is_finished t then []
  else trace_of (resume source target t c) ++ [TaskDone source].

(** The messages that a source script holds, in order. *)
Definition messages_of (script : list read_outcome) : list string :=
  omap (fun o => match o with Yield m => Some m | Raises _ => None end) script.

(** The payloads read from a connection, in order. *)
Definition received_from (from : role) (t : list event) : list string :=
  omap (fun ev =>
          match ev with
          | Recv from' payload =>
              if bool_decide (from' = from) then Some payload else None
          | _ => None
          end) t.

(** The dials of a trace, and the closes of the client connection. *)
Definition dials (t : list event) : list (string * list (string * string)) :=
  omap (fun ev =>
          match ev with
          | Connect url headers => Some (url, headers)
          | _ => None
          end) t.

Definition closes (t : list event) : list (Z * string) :=
  omap (fun ev =>
          match ev with
          | Close code reason => Some (code, reason)
          | _ => None
          end) t.

(** The headers that [create_proxy] builds for a token. *)
Definition upstream_headers (bearer_token : json) : list (string * string) :=
  [ ("Content-Type", "application/json");
    ("Authorization", "Bearer " +:+ py_format bearer_token) ].

(** *** The join, for any two tasks

    [gather_loop] and [create_proxy] with the two coroutines left open: a
    coroutine is given by the function that runs it from one suspension to
    the next.  With the two relays for coroutines they are [gather_loop]
    and [create_proxy] themselves; with others they show what the join and
    the handler around it do with a coroutine that raises. *)



(** * Properties *)

(** ** The relay loop *)

(** The four ways one message goes through the body of the loop. *)
Lemma relay_body_undecodable target message c :
  loads message = None ->
  relay_body target message c = ([LogExn "Error: " JSONDecodeError], c, Val Next).
Proof.
  intros H. unfold relay_body, try_except, bind, json_loads. rewrite H. reflexivity.
Qed.

Lemma relay_body_sent target message data c :
  loads message = Some data ->
  (forall e, head (pending target c) <> Some (SendFail e)) ->
  relay_body target message c = ([Send target (dumps data)], consume target c, Val Next).
Proof.
  intros H Hs. unfold relay_body, try_except, bind, json_loads, ws_send.
  rewrite H. simpl.
  destruct (head (pending target c)) as [[|e]|]; try reflexivity.
  exfalso. by apply (Hs e).
Qed.

Lemma relay_body_closed target message data e c :
  loads message = Some data ->
  head (pending target c) = Some (SendFail e) ->
  is_ConnectionClosed e = true ->
  relay_body target message c = ([], consume target c, Val Break).
Proof.
  intros H Hs He. unfold relay_body, try_except, bind, json_loads, ws_send, inner_handler.
  rewrite H. simpl. rewrite Hs. simpl. rewrite He. reflexivity.
Qed.

Lemma relay_body_write_error target message data e c :
  loads message = Some data ->
  head (pending target c) = Some (SendFail e) ->
  is_ConnectionClosed e = false ->
  relay_body target message c = ([LogExn "Error: " e], consume target c, Val Next).
Proof.
  intros H Hs He. unfold relay_body, try_except, bind, json_loads, ws_send, inner_handler.
  rewrite H. simpl. rewrite Hs. simpl. rewrite He. reflexivity.
Qed.

(** The body of the loop never raises: its second handler takes everything. *)
Lemma relay_body_returns target message c :
  exists t c' k, relay_body target message c = (t, c', Val k).
Proof.
  destruct (loads message) as [data|] eqn:H.
  - destruct (head (pending target c)) as [[|e]|] eqn:Hs.
    + eexists _, _, _. apply (relay_body_sent _ _ data); [done|]. congruence.
    + destruct (is_ConnectionClosed e) eqn:He.
      * eexists _, _, _. by apply (relay_body_closed _ _ data e).
      * eexists _, _, _. by apply (relay_body_write_error _ _ data e).
    + eexists _, _, _. apply (relay_body_sent _ _ data); [done|]. congruence.
  - eexists _, _, _. by apply relay_body_undecodable.
Qed.

(** One turn of the loop, when the body asks for the next one. *)
Lemma proxy_task_next source target message rest name c t c1 :
  relay_body target message c = (t, c1, Val Next) ->
  proxy_task source target (Yield message :: rest) name c =
    (let '(t', c', r) := proxy_task source target rest name c1 in
     (Recv source message :: t ++ t', c', r)).
Proof.
  intros H. unfold proxy_task, try_except. simpl.
  unfold bind at 1. simpl. unfold bind at 1. rewrite H.
  destruct (relay_loop source target rest c1) as [[t1 c2] [[]|e]]; simpl.
  - reflexivity.
  - destruct (outer_handler e c2) as [[t2 c3] r]. simpl. by rewrite app_assoc.
Qed.

Lemma proxy_task_break source target message rest name c t c1 :
  relay_body target message c = (t, c1, Val Break) ->
  proxy_task source target (Yield message :: rest) name c =
    (Recv source message :: t, c1, Val tt).
Proof.
  intros H. unfold proxy_task, try_except. simpl.
  unfold bind at 1. simpl. unfold bind at 1. rewrite H. simpl.
  by rewrite app_nil_r.
Qed.

(** [proxy_task] always returns normally. *)
Lemma proxy_task_returns source target script name c :
  exists t c', proxy_task source target script name c = (t, c', Val tt).
Proof.
  revert c. induction script as [|[message|e] rest IH]; intros c.
  - by eexists _, _.
  - destruct (relay_body_returns target message c) as (t & c1 & [|] & H).
    + rewrite (proxy_task_next _ _ _ _ _ _ _ _ H).
      destruct (IH c1) as (t' & c' & ->). by eexists _, _.
    + rewrite (proxy_task_break _ _ _ _ _ _ _ _ H). by eexists _, _.
  - unfold proxy_task, try_except, outer_handler. simpl.
    destruct (is_ConnectionClosed e); by eexists _, _.
Qed.

Lemma pending_consume target c :
  pending target (consume target c) = tail (pending target c).
Proof. by destruct target. Qed.

Lemma pending_consume_other target other c :
  other <> target -> pending other (consume target c) = pending other c.
Proof. by destruct target, other. Qed.

(** C7: a unit that does not parse is read, logged and dropped (nothing is
    written for it and the connections are left as they were), the relay
    goes on with the units that follow exactly as it would have without it,
    and the relay returns normally to its caller. *)
Theorem undecodable_unit_is_skipped source target message rest name c :
  loads message = None ->
  proxy_task source target (Yield message :: rest) name c =
    (let '(t, c', r) := proxy_task source target rest name c in
     (Recv source message :: LogExn "Error: " JSONDecodeError :: t, c', r))
  /\ result_of (proxy_task source target (Yield message :: rest) name c) = Val tt
  /\ sent_to target
       (trace_of (proxy_task source target (Yield message :: rest) name c)) =
     sent_to target (trace_of (proxy_task source target rest name c)).
Proof.
  intros H.
  rewrite (proxy_task_next _ _ _ _ _ _ _ _ (relay_body_undecodable target _ c H)).
  destruct (proxy_task_returns source target rest name c) as (t & c' & ->).
  by repeat split.
Qed.

(** C6, as the code has it: when the write of a unit fails with an exception
    that is not a connection-closed condition, the exception is caught and
    logged, it is not raised to the caller, and the relay goes on with the
    units that follow. *)
Theorem write_error_is_logged_and_relay_goes_on
    source target message data e rest name c :
  loads message = Some data ->
  head (pending target c) = Some (SendFail e) ->
  is_ConnectionClosed e = false ->
  proxy_task source target (Yield message :: rest) name c =
    (let '(t, c', r) := proxy_task source target rest name (consume target c) in
     (Recv source message :: LogExn "Error: " e :: t, c', r))
  /\ result_of (proxy_task source target (Yield message :: rest) name c) = Val tt.
Proof.
  intros H Hs He.
  rewrite (proxy_task_next _ _ _ _ _ _ _ _
             (relay_body_write_error target _ _ _ c H Hs He)).
  destruct (proxy_task_returns source target rest name (consume target c))
    as (t & c' & ->).
  by split.
Qed.

(** X2: when the write fails because the destination is closed, the loop
    is left at once: the units that follow are not read. *)
Lemma closed_destination_stops_relay source target message data e rest name c :
  loads message = Some data ->
  head (pending target c) = Some (SendFail e) ->
  is_ConnectionClosed e = true ->
  proxy_task source target (Yield message :: rest) name c =
    ([Recv source message], consume target c, Val tt).
Proof.
  intros H Hs He.
  by rewrite (proxy_task_break _ _ _ _ _ _ _ _
                (relay_body_closed target _ _ _ c H Hs He)).
Qed.

(** The relay of a script of messages that all parse, while every write
    succeeds: one write per message, of the re-encoded document. *)
Lemma proxy_task_all_sent source target messages name c :
  Forall (fun m => is_Some (loads m)) messages ->
  Forall (fun o => o = Sent) (pending target c) ->
  sent_to target (trace_of (proxy_task source target (map Yield messages) name c)) =
    omap (fun m => dumps <$> loads m) messages.
Proof.
  revert c. induction messages as [|m messages IH]; intros c Hm Hs; [done|].
  inversion Hm as [|? ? [data Hd] Hm']; subst.
  assert (Hb : relay_body target m c =
               ([Send target (dumps data)], consume target c, Val Next)).
  { apply relay_body_sent; [done|]. intros e He.
    destruct (pending target c) as [|o os]; [done|].
    inversion Hs; subst. simplify_eq/=. }
  simpl map. rewrite (proxy_task_next _ _ _ _ _ _ _ _ Hb).
  specialize (IH (consume target c) Hm').
  destruct (proxy_task source target (map Yield messages) name (consume target c))
    as [[t c'] r].
  unfold trace_of in *. simpl in *. rewrite Hd. simpl.
  rewrite bool_decide_true by done. f_equal. apply IH.
  rewrite pending_consume. destruct (pending target c); [done|].
  by inversion Hs.
Qed.

(** C2, as the code has it: when the N messages read by a relay all parse
    and the destination accepts every write, the destination receives
    exactly N messages, in the same order, the i-th being the re-encoding of
    the document decoded from the i-th message read; it decodes to that same
    document whenever the JSON library reads back what it wrote for it. *)
Theorem relay_preserves_documents source target messages name c :
  Forall (fun m => is_Some (loads m)) messages ->
  Forall (fun o => o = Sent) (pending target c) ->
  length
    (sent_to target
       (trace_of (proxy_task source target (map Yield messages) name c))) =
    length messages /\
  Forall2 (fun m received =>
             exists data, loads m = Some data /\ received = dumps data)
    messages
    (sent_to target
       (trace_of (proxy_task source target (map Yield messages) name c))) /\
  ((forall m data, m ∈ messages -> loads m = Some data ->
                   loads (dumps data) = Some data) ->
   Forall2 (fun m received => loads received = loads m)
     messages
     (sent_to target
        (trace_of (proxy_task source target (map Yield messages) name c)))).
Proof.
  intros Hm Hs. rewrite proxy_task_all_sent by done. clear Hs.
  induction messages as [|m messages IH].
  - repeat split; [constructor|]. intros _. constructor.
  - inversion Hm as [|? ? [data Hd] Hm']; subst.
    destruct (IH Hm') as (Hlen & Hre & Hrt).
    simpl. rewrite Hd. simpl. split; [f_equal; exact Hlen|]. split.
    + constructor; [by exists data|done].
    + intros Hlib. constructor.
      * rewrite (Hlib m data); [done| |done]. by left.
      * apply Hrt. intros m' data' Hin. apply Hlib. by right.
Qed.

(** ** The relay as a task *)

(** The body of the loop changes nothing but the pending writes of its
    target, produces relay events only, and behaves the same in two states
    that agree on these pending writes. *)
Lemma relay_body_frame target message c1 c2 :
  pending target c1 = pending target c2 ->
  exists t k c1' c2',
    relay_body target message c1 = (t, c1', Val k) /\
    relay_body target message c2 = (t, c2', Val k) /\
    pending target c1' = pending target c2' /\
    (c1' = c1 \/ c1' = consume target c1) /\
    Forall (fun ev => relay_event ev = true) t.
Proof.
  intros Hp.
  assert (Hc : pending target (consume target c1) = pending target (consume target c2))
    by (by rewrite !pending_consume, Hp).
  destruct (loads message) as [data|] eqn:H.
  - destruct (head (pending target c1)) as [[|e]|] eqn:Hs.
    + eexists _, _, _, _. split; [|split; [|split; [|split]]].
      * apply (relay_body_sent _ _ data); [done|]. congruence.
      * apply (relay_body_sent _ _ data); [done|]. rewrite <- Hp. congruence.
      * done.
      * by right.
      * by repeat constructor.
    + destruct (is_ConnectionClosed e) eqn:He.
      * eexists _, _, _, _. split; [|split; [|split; [|split]]].
        -- by apply (relay_body_closed _ _ data e).
        -- apply (relay_body_closed _ _ data e); [done| |done]. by rewrite <- Hp.
        -- done.
        -- by right.
        -- constructor.
      * eexists _, _, _, _. split; [|split; [|split; [|split]]].
        -- by apply (relay_body_write_error _ _ data e).
        -- apply (relay_body_write_error _ _ data e); [done| |done]. by rewrite <- Hp.
        -- done.
        -- by right.
        -- by repeat constructor.
    + eexists _, _, _, _. split; [|split; [|split; [|split]]].
      * apply (relay_body_sent _ _ data); [done|]. congruence.
      * apply (relay_body_sent _ _ data); [done|]. rewrite <- Hp. congruence.
      * done.
      * by right.
      * by repeat constructor.
  - eexists _, _, _, _. split; [|split; [|split; [|split]]].
    + by apply relay_body_undecodable.
    + by apply relay_body_undecodable.
    + done.
    + by left.
    + by repeat constructor.
Qed.

Lemma proxy_task_frame source target script name c1 c2 :
  pending target c1 = pending target c2 ->
  trace_of (proxy_task source target script name c1) =
  trace_of (proxy_task source target script name c2).
Proof.
  revert c1 c2. induction script as [|[message|e] rest IH]; intros c1 c2 Hp.
  - done.
  - destruct (relay_body_frame target message c1 c2 Hp)
      as (t & [|] & c1' & c2' & H1 & H2 & Hp' & _).
    + rewrite (proxy_task_next _ _ _ _ _ _ _ _ H1),
        (proxy_task_next _ _ _ _ _ _ _ _ H2).
      specialize (IH c1' c2' Hp').
      destruct (proxy_task source target rest name c1') as [[? ?] ?].
      destruct (proxy_task source target rest name c2') as [[? ?] ?].
      unfold trace_of in *. simpl in *. by rewrite IH.
    + by rewrite (proxy_task_break _ _ _ _ _ _ _ _ H1),
        (proxy_task_break _ _ _ _ _ _ _ _ H2).
  - unfold proxy_task, try_except, outer_handler. simpl.
    by destruct (is_ConnectionClosed e).
Qed.

Lemma proxy_task_events source target script name c :
  Forall (fun ev => relay_event ev = true)
    (trace_of (proxy_task source target script name c)).
Proof.
  revert c. induction script as [|[message|e] rest IH]; intros c.
  - constructor.
  - destruct (relay_body_frame target message c c eq_refl)
      as (t & [|] & c1 & _ & H1 & _ & _ & _ & Ht).
    + rewrite (proxy_task_next _ _ _ _ _ _ _ _ H1).
      specialize (IH c1).
      destruct (proxy_task source target rest name c1) as [[? ?] ?].
      unfold trace_of in *. simpl in *.
      constructor; [done|]. by apply Forall_app.
    + rewrite (proxy_task_break _ _ _ _ _ _ _ _ H1).
      by constructor.
  - unfold proxy_task, try_except, outer_handler. simpl.
    destruct (is_ConnectionClosed e); by repeat constructor.
Qed.

(** One step of a task: it returns normally, the task gets smaller, the
    events of the step are the first of those the task had to produce, and
    only the pending writes of its target may have changed. *)
Lemma task_step_spec source target t c :
  is_finished t = false ->
  exists tr c' t',
    task_step source target t c = (tr, c', Val t') /\
    task_size t' < task_size t /\
    remaining source target t c = tr ++ remaining source target t' c' /\
    (c' = c \/ c' = consume target c).
Proof.
  intros Hf. destruct t as [[|[message|e] rest]|payload rest|]; [| | | |done].
  - exists [TaskDone source], c, Finished. repeat split; simpl; auto with lia.
  - destruct (loads message) as [data|] eqn:H.
    + exists [Recv source message], c, (AtSend (dumps data) rest).
      repeat split; simpl; auto with lia.
      * unfold task_step, task_advance, try_except, bind, json_loads.
        simpl. by rewrite H.
      * unfold remaining, resume, proxy_task. simpl.
        unfold relay_body, try_except, bind, json_loads, emit, trace_of.
        simpl. rewrite H. simpl.
        destruct (ws_send target (dumps data) c) as [[t1 c1] [[]|e]]; simpl.
        -- by destruct (relay_loop source target rest c1) as [[t2 c2] [[]|e]];
             simpl; [|destruct (outer_handler e c2) as [[t3 c3] r]].
        -- destruct (inner_handler e c1) as [[t2 c2] [[|]|e2]]; simpl.
           ++ by destruct (relay_loop source target rest c2) as [[t3 c3] [[]|e3]];
                simpl; [|destruct (outer_handler e3 c3) as [[t4 c4] r]].
           ++ done.
           ++ by destruct (outer_handler e2 c2) as [[t3 c3] r].
    + exists [Recv source message; LogExn "Error: " JSONDecodeError], c, (AtNext rest).
      repeat split; simpl; auto with lia.
      * unfold task_step, task_advance, try_except, bind, json_loads.
        simpl. by rewrite H.
      * unfold remaining. simpl. unfold resume.
        rewrite (proxy_task_next _ _ _ _ _ _ _ _
                   (relay_body_undecodable target _ c H)).
        by destruct (proxy_task source target rest "" c) as [[? ?] ?].
  - exists (if is_ConnectionClosed e then [TaskDone source]
            else [LogExn "Error: " e; TaskDone source]), c, Finished.
    repeat split; simpl; auto with lia.
    + unfold task_step, task_advance, try_except, bind, outer_handler. simpl.
      by destruct (is_ConnectionClosed e).
    + unfold remaining, resume, proxy_task, try_except, outer_handler. simpl.
      by destruct (is_ConnectionClosed e).
  - unfold remaining, resume, task_step, task_advance, try_except, bind,
      trace_of. simpl.
    destruct (head (pending target c)) as [[|e]|] eqn:Hs.
    + exists [Send target payload], (consume target c), (AtNext rest).
      unfold ws_send. rewrite Hs. simpl. repeat split; auto with lia.
      unfold proxy_task, try_except.
      by destruct (relay_loop source target rest (consume target c))
        as [[t2 c2] [[]|e]]; simpl; [|destruct (outer_handler e c2) as [[t3 c3] r]].
    + destruct (is_ConnectionClosed e) eqn:He.
      * exists [TaskDone source], (consume target c), Finished.
        unfold ws_send, inner_handler. rewrite Hs. simpl. rewrite He. simpl.
        repeat split; auto with lia.
      * exists [LogExn "Error: " e], (consume target c), (AtNext rest).
        unfold ws_send, inner_handler. rewrite Hs. simpl. rewrite He. simpl.
        repeat split; auto with lia.
        unfold proxy_task, try_except.
        by destruct (relay_loop source target rest (consume target c))
          as [[t2 c2] [[]|e2]]; simpl; [|destruct (outer_handler e2 c2) as [[t3 c3] r]].
    + exists [Send target payload], (consume target c), (AtNext rest).
      unfold ws_send. rewrite Hs. simpl. repeat split; auto with lia.
      unfold proxy_task, try_except.
      by destruct (relay_loop source target rest (consume target c))
        as [[t2 c2] [[]|e]]; simpl; [|destruct (outer_handler e c2) as [[t3 c3] r]].
Qed.

Lemma remaining_frame source target t c1 c2 :
  pending target c1 = pending target c2 ->
  remaining source target t c1 = remaining source target t c2.
Proof.
  intros Hp. destruct t as [script|payload rest|]; [| |done].
  - unfold remaining, resume. simpl. f_equal. by apply proxy_task_frame.
  - assert (Hc : pending target (consume target c1) =
                 pending target (consume target c2))
      by (by rewrite !pending_consume, Hp).
    pose proof (proxy_task_frame source target rest "" _ _ Hc) as Hr.
    unfold remaining, resume, try_except, bind, ws_send, inner_handler,
      trace_of. simpl. rewrite <- Hp.
    unfold proxy_task, try_except, trace_of in Hr.
    destruct (head (pending target c1)) as [[|e]|]; simpl.
    + destruct (relay_loop source target rest (consume target c1))
        as [[t1 d1] [[]|e1]],
        (relay_loop source target rest (consume target c2))
        as [[t2 d2] [[]|e2]]; simpl in *;
        repeat match goal with
          | |- context [outer_handler ?e ?d] =>
              destruct (outer_handler e d) as [[? ?] ?]
          | H : context [outer_handler ?e ?d] |- _ =>
              destruct (outer_handler e d) as [[? ?] ?]
          end; simpl in *; by rewrite Hr.
    + destruct (is_ConnectionClosed e); simpl; [done|].
      destruct (relay_loop source target rest (consume target c1))
        as [[t1 d1] [[]|e1]],
        (relay_loop source target rest (consume target c2))
        as [[t2 d2] [[]|e2]]; simpl in *;
        repeat match goal with
          | |- context [outer_handler ?e ?d] =>
              destruct (outer_handler e d) as [[? ?] ?]
          | H : context [outer_handler ?e ?d] |- _ =>
              destruct (outer_handler e d) as [[? ?] ?]
          end; simpl in *; by rewrite Hr.
    + destruct (relay_loop source target rest (consume target c1))
        as [[t1 d1] [[]|e1]],
        (relay_loop source target rest (consume target c2))
        as [[t2 d2] [[]|e2]]; simpl in *;
        repeat match goal with
          | |- context [outer_handler ?e ?d] =>
              destruct (outer_handler e d) as [[? ?] ?]
          | H : context [outer_handler ?e ?d] |- _ =>
              destruct (outer_handler e d) as [[? ?] ?]
          end; simpl in *; by rewrite Hr.
Qed.

Lemma remaining_events source target t c :
  Forall (fun ev => relay_event ev = true) (remaining source target t c).
Proof.
  remember (task_size t) as n eqn:Hn. revert t c Hn.
  induction n as [n IH] using lt_wf_ind. intros t c ->.
  destruct (is_finished t) eqn:Hf.
  - unfold remaining. rewrite Hf. constructor.
  - destruct (task_step_spec source target t c Hf)
      as (tr & c' & t' & Hstep & Hlt & Hrem & _).
    destruct t as [script|payload rest|]; [| |done].
    + unfold remaining. simpl. apply Forall_app. split.
      * apply proxy_task_events.
      * by repeat constructor.
    + pose proof (IH _ Hlt t' c' eq_refl) as IH'.
      rewrite Hrem. apply Forall_app. split; [|done].
      revert Hstep. unfold task_step, task_advance, try_except, bind, ws_send,
        inner_handler. simpl.
      destruct (head (pending target c)) as [[|e]|]; simpl;
        [|destruct (is_ConnectionClosed e); simpl|];
        intros [= <- _ _]; by repeat constructor.
Qed.

(** ** Interleavings *)

Lemma interleaving_app_left {A} (p l1 l2 l : list A) :
  interleaving l1 l2 l -> interleaving (p ++ l1) l2 (p ++ l).
Proof. intros H. induction p; simpl; [done|]. by constructor. Qed.

Lemma interleaving_app_right {A} (p l1 l2 l : list A) :
  interleaving l1 l2 l -> interleaving l1 (p ++ l2) (p ++ l).
Proof. intros H. induction p; simpl; [done|]. by constructor. Qed.

Lemma interleaving_Forall {A} (P : A -> Prop) (l1 l2 l : list A) :
  interleaving l1 l2 l -> Forall P l1 -> Forall P l2 -> Forall P l.
Proof.
  induction 1; intros H1 H2; [done| |].
  - inversion H1; subst. constructor; auto.
  - inversion H2; subst. constructor; auto.
Qed.


(** ** [gather] *)

(** With enough fuel, [gather_loop] returns normally and its trace merges
    what the two tasks had to produce: both were run to their end. *)
Lemma gather_loop_spec fuel sched a b c :
  task_size a + task_size b <= fuel ->
  exists tr c',
    gather_loop fuel sched a b c = (tr, c', Val tt) /\
    interleaving (remaining Client Upstream a c) (remaining Upstream Client b c) tr.
Proof.
  revert sched a b c. induction fuel as [|fuel IH]; intros sched a b c Hfuel.
  - assert (a = Finished) as -> by (destruct a; simpl in *; [lia|lia|done]).
    assert (b = Finished) as -> by (destruct b; simpl in *; [lia|lia|done]).
    eexists _, _. split; [done|]. constructor.
  - simpl. destruct (is_finished a && is_finished b) eqn:Hboth.
    + apply andb_true_iff in Hboth as [Ha Hb].
      destruct a; try done. destruct b; try done.
      eexists _, _. split; [done|]. constructor.
    + destruct (negb (is_finished a) && (hd true sched || is_finished b)) eqn:Hpick.
      * assert (Ha : is_finished a = false).
        { apply andb_true_iff in Hpick as [Ha _]. by apply negb_true_iff. }
        destruct (task_step_spec Client Upstream a c Ha)
          as (tr & c1 & a' & Hstep & Hlt & Hrem & Hc).
        assert (Hb : remaining Upstream Client b c1 = remaining Upstream Client b c).
        { apply remaining_frame. destruct Hc as [->| ->]; [done|].
          by apply pending_consume_other. }
        destruct (IH (tail sched) a' b c1) as (tr' & c' & Hrun & Hil); [lia|].
        exists (tr ++ tr'), c'. split.
        -- unfold bind. by rewrite Hstep, Hrun.
        -- rewrite Hrem, <- Hb. by apply interleaving_app_left.
      * assert (Hb : is_finished b = false).
        { destruct (is_finished a) eqn:Ha; [by destruct (is_finished b)|].
          simpl in Hpick. apply orb_false_iff in Hpick. tauto. }
        destruct (task_step_spec Upstream Client b c Hb)
          as (tr & c1 & b' & Hstep & Hlt & Hrem & Hc).
        assert (Ha : remaining Client Upstream a c1 = remaining Client Upstream a c).
        { apply remaining_frame. destruct Hc as [->| ->]; [done|].
          by apply pending_consume_other. }
        destruct (IH (tail sched) a b' c1) as (tr' & c' & Hrun & Hil); [lia|].
        exists (tr ++ tr'), c'. split.
        -- unfold bind. by rewrite Hstep, Hrun.
        -- rewrite Hrem, <- Ha. by apply interleaving_app_right.
Qed.

(** ** The session orchestrator *)

Lemma upstream_held_relay held t :
  Forall (fun ev => relay_event ev = true) t -> upstream_held held t = held.
Proof.
  induction 1 as [|ev t Hev _ IH]; [done|]. by destruct ev.
Qed.

Lemma upstream_held_app held t1 t2 :
  upstream_held held (t1 ++ t2) = upstream_held (upstream_held held t1) t2.
Proof.
  revert held. induction t1 as [|ev t1 IH]; intros held; [done|].
  destruct ev; simpl; apply IH.
Qed.

(** The scoped lifetime of the upstream connection: when the dial succeeds,
    the connection is released after the body, whether the body returns or
    raises. *)
Lemma async_with_connect_releases {A} url headers (body : M A) c t c' r :
  body c = (t, c', r) ->
  async_with_connect url headers DialOk body c =
    (Connect url headers :: Opened :: t ++ [Release], c', r).
Proof.
  intros H. unfold async_with_connect, bind, emit. simpl. rewrite H.
  by destruct r.
Qed.

Lemma async_with_connect_fails {A} url headers (body : M A) c e :
  async_with_connect url headers (DialFail e) body c =
    ([Connect url headers], c, Exc e).
Proof. reflexivity. Qed.

(** After a successful dial: both relays are run to their end, then the
    connection is released. *)
Lemma create_proxy_connected w bearer_token c :
  dial w = DialOk ->
  exists body c',
    create_proxy w bearer_token c =
      (Connect SERVICE_URL (upstream_headers bearer_token) :: Opened ::
         body ++ [Release], c', Val tt) /\
    interleaving
      (trace_of (proxy_task Client Upstream (client_messages w) "Client->Server" c)
         ++ [TaskDone Client])
      (trace_of (proxy_task Upstream Client (upstream_messages w) "Server->Client" c)
         ++ [TaskDone Upstream])
      body.
Proof.
  intros Hd.
  destruct (gather_loop_spec
              (task_size (AtNext (client_messages w)) +
               task_size (AtNext (upstream_messages w)))
              (schedule w) (AtNext (client_messages w))
              (AtNext (upstream_messages w)) c (le_n _))
    as (body & c' & Hrun & Hil).
  exists body, c'. split; [|exact Hil].
  assert (Hb : try_except
                 (gather (schedule w) (AtNext (client_messages w))
                    (AtNext (upstream_messages w)))
                 (log_failure "Task error: ") c = (body, c', Val tt)).
  { unfold try_except, gather. by rewrite Hrun. }
  unfold create_proxy. rewrite Hd. cbv zeta. unfold try_except at 1.
  by rewrite (async_with_connect_releases _ _ _ _ _ _ _ Hb).
Qed.

(** After a failed dial: the failure is logged and nothing else happens. *)
Lemma create_proxy_dial_failed w bearer_token c e :
  dial w = DialFail e ->
  create_proxy w bearer_token c =
    ([ Connect SERVICE_URL (upstream_headers bearer_token);
       LogExn "Proxy connection error: " e;
       LogType "Error type: " e;
       LogCause "Caused by: " e ], c, Val tt).
Proof. intros Hd. unfold create_proxy. by rewrite Hd. Qed.







(** C8: on every path the orchestrator returns normally (no exception
    reaches its caller) and does not hold the upstream connection when it
    returns: after a successful dial the connection is released as the last
    action, after a failed dial none was established; and the release after
    the scoped block happens whether the block returns or raises. *)
Theorem create_proxy_releases_upstream w bearer_token c :
  result_of (create_proxy w bearer_token c) = Val tt /\
  upstream_held false (trace_of (create_proxy w bearer_token c)) = false /\
  (dial w = DialOk ->
     In Opened (trace_of (create_proxy w bearer_token c)) /\
     last (trace_of (create_proxy w bearer_token c)) = Some Release) /\
  (forall e, dial w = DialFail e ->
     ~ In Opened (trace_of (create_proxy w bearer_token c))) /\
  (forall (block : M unit) t c' r,
     block c = (t, c', r) ->
     last (trace_of (async_with_connect SERVICE_URL
                       (upstream_headers bearer_token) DialOk block c)) =
       Some Release).
Proof.
  destruct (dial w) as [|e] eqn:Hd.
  - destruct (create_proxy_connected w bearer_token c Hd)
      as (body & c' & -> & Hil).
    assert (Hbody : Forall (fun ev => relay_event ev = true) body).
    { eapply interleaving_Forall; [exact Hil| |].
      - apply Forall_app. split; [apply proxy_task_events|by repeat constructor].
      - apply Forall_app. split; [apply proxy_task_events|by repeat constructor]. }
    unfold result_of, trace_of. simpl. repeat split.
    + by rewrite upstream_held_app, (upstream_held_relay _ _ Hbody).
    + right. by left.
    + by rewrite !app_comm_cons, last_snoc.
    + done.
    + intros block t c'' r Hb.
      rewrite (async_with_connect_releases _ _ _ _ _ _ _ Hb). simpl.
      by rewrite !app_comm_cons, last_snoc.
  - rewrite (create_proxy_dial_failed w bearer_token c e Hd).
    unfold result_of, trace_of. simpl. repeat split; try done.
    + intros e' _. intuition congruence.
    + intros block t c'' r Hb.
      rewrite (async_with_connect_releases _ _ _ _ _ _ _ Hb). simpl.
      by rewrite !app_comm_cons, last_snoc.
Qed.

(** What the orchestrator does in any world: it dials first, with the
    headers built from the token, dials only once, does not close the client
    connection and returns normally. *)
Lemma create_proxy_shape w bearer_token c :
  exists t c',
    create_proxy w bearer_token c =
      (Connect SERVICE_URL (upstream_headers bearer_token) :: t, c', Val tt) /\
    (forall url headers, ~ In (Connect url headers) t) /\
    (forall code reason, ~ In (Close code reason) t).
Proof.
  destruct (dial w) as [|e] eqn:Hd.
  - destruct (create_proxy_connected w bearer_token c Hd)
      as (body & c' & -> & Hil).
    assert (Hbody : Forall (fun ev => relay_event ev = true) body).
    { eapply interleaving_Forall; [exact Hil| |].
      - apply Forall_app. split; [apply proxy_task_events|by repeat constructor].
      - apply Forall_app. split; [apply proxy_task_events|by repeat constructor]. }
    eexists _, _. split; [reflexivity|].
    rewrite List.Forall_forall in Hbody.
    split; intros ? ? [|[Hin|[|[]]]%in_app_iff]; try done;
      by apply Hbody in Hin.
  - rewrite (create_proxy_dial_failed w bearer_token c e Hd).
    eexists _, _. split; [reflexivity|].
    split; intros ? ?; simpl; intuition congruence.
Qed.

(** ** The gatekeeper *)

Lemma list_contains_str_spec key xs :
  list_contains_str key xs = true <-> In (JStr key) xs.
Proof.
  unfold list_contains_str. rewrite existsb_exists. split.
  - intros (x & Hin & Hx). destruct x; try done.
    apply bool_decide_eq_true in Hx. by subst.
  - intros Hin. exists (JStr key). split; [done|]. by apply bool_decide_eq_true.
Qed.

(** The run of the gatekeeper when no document comes out of the first
    receive: the message is late or never comes, the receive raises, or the
    message does not parse. *)
Lemma handle_client_timeout w c :
  match first w with
  | Arrives delay _ => Qle_bool delay AUTH_TIMEOUT = false
  | Silent => True
  | RecvRaises _ => False
  end ->
  handle_client w c =
    ([ Log "New connection..."; LogExn "Error: " TimeoutError;
       Close 1011 "Internal error" ], c, Val tt).
Proof.
  unfold handle_client, wait_for_recv.
  destruct (first w) as [delay message| |e]; [|done|done].
  by intros ->.
Qed.

Lemma handle_client_recv_raises w c e :
  first w = RecvRaises e ->
  handle_client w c =
    ([ Log "New connection..."; LogExn "Error: " e;
       Close 1011 "Internal error" ], c, Val tt).
Proof. unfold handle_client, wait_for_recv. by intros ->. Qed.

Lemma handle_client_undecodable w c delay message :
  first w = Arrives delay message ->
  Qle_bool delay AUTH_TIMEOUT = true ->
  loads message = None ->
  handle_client w c =
    ([ Log "New connection..."; Recv Client message;
       LogExn "Error: " JSONDecodeError; Close 1011 "Internal error" ],
     c, Val tt).
Proof.
  intros Hf Ht Hl.
  unfold handle_client, wait_for_recv, try_except, bind, json_loads.
  rewrite Hf, Ht. simpl. by rewrite Hl.
Qed.

(** The run of the gatekeeper on a first message that arrives in time and
    parses, by the kind of document. *)
Lemma handle_client_decoded w c delay message data :
  first w = Arrives delay message ->
  Qle_bool delay AUTH_TIMEOUT = true ->
  loads message = Some data ->
  let refused :=
    ([ Log "New connection..."; Recv Client message;
       Close 1008 "Bearer token missing" ], c, Val tt) in
  let type_error :=
    ([ Log "New connection..."; Recv Client message;
       LogExn "Error: " TypeError; Close 1011 "Internal error" ], c, Val tt) in
  handle_client w c =
    match data with
    | JObj fields =>
        match fields !! "bearer_token" with
        | Some bearer_token =>
            let '(t, c', r) := create_proxy w bearer_token c in
            (Log "New connection..." :: Recv Client message :: t, c', r)
        | None => refused
        end
    | JArr xs =>
        if list_contains_str "bearer_token" xs then type_error else refused
    | JStr s => if str_contains "bearer_token" s then type_error else refused
    | _ => type_error
    end.
Proof.
  intros Hf Ht Hl refused type_error. subst refused type_error.
  unfold handle_client, wait_for_recv, try_except, bind, json_loads.
  rewrite Hf, Ht. simpl. rewrite Hl. simpl.
  destruct data as [| | | |s|xs|fields]; simpl; try reflexivity.
  - by destruct (str_contains "bearer_token" s).
  - by destruct (list_contains_str "bearer_token" xs).
  - destruct (fields !! "bearer_token") as [token|] eqn:Hk.
    + rewrite bool_decide_true by eauto. simpl.
      destruct (create_proxy_shape w token c) as (t & c' & -> & _). by simpl.
    + rewrite bool_decide_false by (by intros [? ?]). by simpl.
Qed.

(** The first message is in time when it arrives within 5 seconds. *)
Lemma in_time_iff delay :
  Qle_bool delay AUTH_TIMEOUT = true <-> (delay <= 5)%Q.
Proof.
  rewrite Qle_bool_iff. unfold AUTH_TIMEOUT.
  assert (H : (5.0 == 5)%Q) by reflexivity. by rewrite H.
Qed.

Lemma late_iff delay :
  Qle_bool delay AUTH_TIMEOUT = false <-> ~ (delay <= 5)%Q.
Proof.
  rewrite <- in_time_iff. by destruct (Qle_bool delay AUTH_TIMEOUT).
Qed.

(** C1: when the first message arrives in time and is a JSON object with a
    field [bearer_token], the gatekeeper hands over to the orchestrator,
    which dials the fixed endpoint, once, with the headers
    [Content-Type: application/json] and [Authorization: Bearer <token>],
    where <token> is the text of the value of the field: the value itself
    when it is a string. *)
Theorem handle_client_dials_with_bearer_token
    w c delay message fields bearer_token :
  first w = Arrives delay message ->
  (delay <= 5)%Q ->
  loads message = Some (JObj fields) ->
  fields !! "bearer_token" = Some bearer_token ->
  exists rest,
    trace_of (handle_client w c) =
      Log "New connection..." :: Recv Client message ::
      Connect SERVICE_URL
        [ ("Content-Type", "application/json");
          ("Authorization", "Bearer " +:+ py_format bearer_token) ] :: rest /\
    (forall url headers, ~ In (Connect url headers) rest) /\
    (forall token, bearer_token = JStr token -> py_format bearer_token = token).
Proof.
  intros Hf Ht Hl Hk. apply in_time_iff in Ht.
  rewrite (handle_client_decoded w c delay message _ Hf Ht Hl), Hk.
  destruct (create_proxy_shape w bearer_token c) as (t & c' & -> & Hno & _).
  exists t. repeat split; [done|]. by intros token ->.
Qed.

(** C3: when the first message arrives in time and is a JSON object without
    a field [bearer_token], the gatekeeper closes the client connection with
    code 1008 and reason "Bearer token missing", and does nothing else: no
    upstream connection is attempted. *)
Theorem handle_client_refuses_missing_token w c delay message fields :
  first w = Arrives delay message ->
  (delay <= 5)%Q ->
  loads message = Some (JObj fields) ->
  fields !! "bearer_token" = None ->
  handle_client w c =
    ([ Log "New connection..."; Recv Client message;
       Close 1008 "Bearer token missing" ], c, Val tt) /\
  (forall url headers,
     ~ In (Connect url headers) (trace_of (handle_client w c))).
Proof.
  intros Hf Ht Hl Hk. apply in_time_iff in Ht.
  rewrite (handle_client_decoded w c delay message _ Hf Ht Hl), Hk.
  split; [done|]. intros url headers. unfold trace_of. simpl.
  intuition congruence.
Qed.

(** C4: when the first message does not parse as JSON, or does not arrive
    within 5 seconds (it comes later or never), or the receive raises, the
    gatekeeper logs the error and closes the client connection with code
    1011 and reason "Internal error"; no session is started. *)
Theorem handle_client_internal_error w c :
  match first w with
  | Arrives delay message => ~ (delay <= 5)%Q \/ loads message = None
  | Silent => True
  | RecvRaises _ => True
  end ->
  exists received e,
    handle_client w c =
      (Log "New connection..." ::
       received ++ [LogExn "Error: " e; Close 1011 "Internal error"],
       c, Val tt) /\
    (received = [] \/ exists message, received = [Recv Client message]) /\
    (forall url headers,
       ~ In (Connect url headers) (trace_of (handle_client w c))).
Proof.
  intros H.
  assert (Hcases :
    exists received e,
      handle_client w c =
        (Log "New connection..." ::
         received ++ [LogExn "Error: " e; Close 1011 "Internal error"],
         c, Val tt) /\
      (received = [] \/ exists message, received = [Recv Client message])).
  { destruct (first w) as [delay message| |e] eqn:Hf.
    - destruct (Qle_bool delay AUTH_TIMEOUT) eqn:Ht.
      + destruct H as [H|H]; [by apply in_time_iff in Ht|].
        exists [Recv Client message], JSONDecodeError. split; [|eauto].
        by apply (handle_client_undecodable w c delay).
      + exists [], TimeoutError. split; [|eauto].
        apply handle_client_timeout. by rewrite Hf.
    - exists [], TimeoutError. split; [|eauto].
      apply handle_client_timeout. by rewrite Hf.
    - exists [], e. split; [|eauto]. by apply handle_client_recv_raises. }
  destruct Hcases as (received & e & Hrun & Hrecv).
  exists received, e. repeat split; try done.
  intros url headers. rewrite Hrun. unfold trace_of. simpl.
  destruct Hrecv as [->|[message ->]]; simpl; intuition congruence.
Qed.

(** A run of the gatekeeper that dials went through all the checks. *)
Lemma handle_client_dial_inv w c url headers :
  In (Connect url headers) (trace_of (handle_client w c)) ->
  exists delay message fields bearer_token rest,
    first w = Arrives delay message /\
    (delay <= 5)%Q /\
    loads message = Some (JObj fields) /\
    fields !! "bearer_token" = Some bearer_token /\
    trace_of (handle_client w c) =
      Log "New connection..." :: Recv Client message ::
      Connect SERVICE_URL (upstream_headers bearer_token) :: rest /\
    (forall url' headers', ~ In (Connect url' headers') rest).
Proof.
  destruct (first w) as [delay message| |e] eqn:Hf.
  - destruct (Qle_bool delay AUTH_TIMEOUT) eqn:Ht.
    + destruct (loads message) as [data|] eqn:Hl.
      * rewrite (handle_client_decoded w c delay message _ Hf Ht Hl).
        destruct data as [| | | |s|xs|fields];
          try (unfold trace_of; simpl; intuition congruence).
        -- destruct (str_contains "bearer_token" s);
             unfold trace_of; simpl; intuition congruence.
        -- destruct (list_contains_str "bearer_token" xs);
             unfold trace_of; simpl; intuition congruence.
        -- destruct (fields !! "bearer_token") as [token|] eqn:Hk;
             [|unfold trace_of; simpl; intuition congruence].
           destruct (create_proxy_shape w token c) as (t & c' & -> & Hno & _).
           intros _. exists delay, message, fields, token, t.
           repeat split; try done. by apply in_time_iff.
      * rewrite (handle_client_undecodable w c delay message Hf Ht Hl).
        unfold trace_of; simpl; intuition congruence.
    + rewrite handle_client_timeout by (by rewrite Hf).
      unfold trace_of; simpl; intuition congruence.
  - rewrite handle_client_timeout by (by rewrite Hf).
    unfold trace_of; simpl; intuition congruence.
  - rewrite (handle_client_recv_raises w c e Hf).
    unfold trace_of; simpl; intuition congruence.
Qed.

(** C9: wherever a dial of the upstream endpoint occurs in a run of the
    gatekeeper, the first message of the client was received before it, in
    time, and it parsed as JSON. *)
Theorem upstream_dialled_after_first_message w c pre url headers post :
  trace_of (handle_client w c) = pre ++ Connect url headers :: post ->
  exists delay message data,
    first w = Arrives delay message /\
    (delay <= 5)%Q /\
    loads message = Some data /\
    In (Recv Client message) pre.
Proof.
  intros Htrace.
  destruct (handle_client_dial_inv w c url headers)
    as (delay & message & fields & token & rest & Hf & Ht & Hl & _ & Hshape & Hno).
  { rewrite Htrace. apply in_app_iff. right. by left. }
  exists delay, message, (JObj fields). repeat split; try done.
  rewrite Hshape in Htrace.
  destruct pre as [|ev1 [|ev2 [|ev3 pre]]]; simpl in Htrace.
  - discriminate.
  - discriminate.
  - injection Htrace as <- <- _. right. by left.
  - injection Htrace as _ _ _ Hrest. exfalso.
    apply (Hno url headers). rewrite Hrest. apply in_app_iff. right. by left.
Qed.

(** C10, as the code has it: a session is started only when the first
    message decodes to a JSON object with the key [bearer_token].  For a
    first message that decodes to anything else no upstream connection is
    attempted, and the client connection is closed
    - with code 1011 "Internal error" when the document is [null], a
      boolean or a number (the membership test raises), a string that
      contains [bearer_token] or an array that has the string
      [bearer_token] as an element (the indexing raises);
    - with code 1008 "Bearer token missing" when it is a string that does
      not contain [bearer_token] or an array without that element. *)
Theorem handle_client_on_other_documents w c delay message data :
  first w = Arrives delay message ->
  (delay <= 5)%Q ->
  loads message = Some data ->
  (forall fields, data <> JObj fields) ->
  let refused :=
    ([ Log "New connection..."; Recv Client message;
       Close 1008 "Bearer token missing" ], c, Val tt) in
  let type_error :=
    ([ Log "New connection..."; Recv Client message;
       LogExn "Error: " TypeError; Close 1011 "Internal error" ], c, Val tt) in
  handle_client w c =
    match data with
    | JStr s => if str_contains "bearer_token" s then type_error else refused
    | JArr xs =>
        if list_contains_str "bearer_token" xs then type_error else refused
    | _ => type_error
    end /\
  (forall xs, list_contains_str "bearer_token" xs = true <->
              In (JStr "bearer_token") xs) /\
  (forall url headers,
     ~ In (Connect url headers) (trace_of (handle_client w c))) /\
  (forall w' c' url headers,
     In (Connect url headers) (trace_of (handle_client w' c')) ->
     exists delay' message' fields bearer_token,
       first w' = Arrives delay' message' /\
       loads message' = Some (JObj fields) /\
       fields !! "bearer_token" = Some bearer_token).
Proof.
  intros Hf Ht Hl Hobj refused type_error. subst refused type_error.
  apply in_time_iff in Ht.
  split; [|split; [|split]].
  - rewrite (handle_client_decoded w c delay message _ Hf Ht Hl).
    destruct data as [| | | |s|xs|fields]; try reflexivity.
    by destruct (Hobj fields).
  - apply list_contains_str_spec.
  - intros url headers Hin.
    destruct (handle_client_dial_inv w c url headers Hin)
      as (delay' & message' & fields & token & rest & Hf' & _ & Hl' & _).
    rewrite Hf in Hf'. injection Hf' as _ <-. rewrite Hl in Hl'.
    injection Hl' as ->. by destruct (Hobj fields).
  - intros w' c' url headers Hin.
    destruct (handle_client_dial_inv w' c' url headers Hin)
      as (delay' & message' & fields & token & rest & Hf' & _ & Hl' & Hk & _).
    by exists delay', message', fields, token.
Qed.

(** * Further properties of the relay *)

(** The ways one message goes through the body of the loop, with what each
    leaves behind. *)
Lemma relay_body_cases target message c :
  (loads message = None /\
   relay_body target message c =
     ([LogExn "Error: " JSONDecodeError], c, Val Next)) \/
  (exists data,
     loads message = Some data /\
     (relay_body target message c =
        ([Send target (dumps data)], consume target c, Val Next) \/
      (exists e,
         head (pending target c) = Some (SendFail e) /\
         is_ConnectionClosed e = true /\
         relay_body target message c = ([], consume target c, Val Break)) \/
      (exists e,
         head (pending target c) = Some (SendFail e) /\
         is_ConnectionClosed e = false /\
         relay_body target message c =
           ([LogExn "Error: " e], consume target c, Val Next)))).
Proof.
  destruct (loads message) as [data|] eqn:H.
  - right. exists data. split; [done|].
    destruct (head (pending target c)) as [[|e]|] eqn:Hs.
    + left. apply relay_body_sent; [done|]. congruence.
    + destruct (is_ConnectionClosed e) eqn:He.
      * right. left. exists e. repeat split; try done.
        by apply (relay_body_closed _ _ data e).
      * right. right. exists e. repeat split; try done.
        by apply (relay_body_write_error _ _ data e).
    + left. apply relay_body_sent; [done|]. congruence.
  - left. split; [done|]. by apply relay_body_undecodable.
Qed.

Lemma proxy_task_source_raises source target e rest name c :
  proxy_task source target (Raises e :: rest) name c =
    (if is_ConnectionClosed e then [] else [LogExn "Error: " e], c, Val tt).
Proof.
  unfold proxy_task, try_except, outer_handler. simpl.
  by destruct (is_ConnectionClosed e).
Qed.

(** X1: whatever the source yields and whatever the writes do, the relay
    returns normally, and it never closes a connection, never dials and
    never releases the upstream connection. *)
Theorem relay_returns_and_only_relays source target script name c :
  result_of (proxy_task source target script name c) = Val tt /\
  closes (trace_of (proxy_task source target script name c)) = [] /\
  dials (trace_of (proxy_task source target script name c)) = [] /\
  ~ In Release (trace_of (proxy_task source target script name c)).
Proof.
  clear py_repr. revert c. induction script as [|[message|e] rest IH]; intros c.
  - unfold result_of, trace_of. simpl. tauto.
  - destruct (relay_body_cases target message c)
      as [[_ Hb]|(data & _ & [Hb|[(e & _ & _ & Hb)|(e & _ & _ & Hb)]])].
    + rewrite (proxy_task_next _ _ _ _ _ _ _ _ Hb).
      specialize (IH c).
      destruct (proxy_task source target rest name c) as [[t' c'] r].
      unfold result_of, trace_of in *. simpl in *. intuition congruence.
    + rewrite (proxy_task_next _ _ _ _ _ _ _ _ Hb).
      specialize (IH (consume target c)).
      destruct (proxy_task source target rest name (consume target c))
        as [[t' c'] r].
      unfold result_of, trace_of in *. simpl in *. intuition congruence.
    + rewrite (proxy_task_break _ _ _ _ _ _ _ _ Hb).
      unfold result_of, trace_of. simpl. intuition congruence.
    + rewrite (proxy_task_next _ _ _ _ _ _ _ _ Hb).
      specialize (IH (consume target c)).
      destruct (proxy_task source target rest name (consume target c))
        as [[t' c'] r].
      unfold result_of, trace_of in *. simpl in *. intuition congruence.
  - rewrite proxy_task_source_raises. unfold result_of, trace_of.
    destruct (is_ConnectionClosed e); simpl; intuition congruence.
Qed.

(** X3: when the iteration over the source raises, the relay ends there:
    silently for a closed connection, with the error logged otherwise; what
    the source would have yielded afterwards is never read. *)
Theorem source_failure_ends_relay source target before e after name c :
  proxy_task source target (before ++ Raises e :: after) name c =
    proxy_task source target (before ++ [Raises e]) name c /\
  proxy_task source target (Raises e :: after) name c =
    (if is_ConnectionClosed e then [] else [LogExn "Error: " e], c, Val tt).
Proof.
  split; [|apply proxy_task_source_raises].
  revert c. induction before as [|[message|e'] before IH]; intros c.
  - simpl. by rewrite !proxy_task_source_raises.
  - simpl.
    destruct (relay_body_returns target message c) as (t & c1 & [|] & Hb).
    + by rewrite !(proxy_task_next _ _ _ _ _ _ _ _ Hb), IH.
    + by rewrite !(proxy_task_break _ _ _ _ _ _ _ _ Hb).
  - simpl. by rewrite !proxy_task_source_raises.
Qed.

(** X5: in every run of the relay the payloads written to the destination
    are, in order, re-encodings of messages of the source that parse: a
    sublist of them.  Nothing else is ever written, and nothing is written
    twice or out of order. *)
Theorem relay_writes_only_reencoded_units source target script name c :
  sublist
    (sent_to target (trace_of (proxy_task source target script name c)))
    (omap (fun m => dumps <$> loads m) (messages_of script)).
Proof.
  revert c. induction script as [|[message|e] rest IH]; intros c.
  - constructor.
  - destruct (relay_body_cases target message c)
      as [[Hl Hb]|(data & Hl & [Hb|[(e & _ & _ & Hb)|(e & _ & _ & Hb)]])].
    + rewrite (proxy_task_next _ _ _ _ _ _ _ _ Hb).
      specialize (IH c).
      destruct (proxy_task source target rest name c) as [[t' c'] r].
      unfold trace_of in *. simpl in *. by rewrite Hl.
    + rewrite (proxy_task_next _ _ _ _ _ _ _ _ Hb).
      specialize (IH (consume target c)).
      destruct (proxy_task source target rest name (consume target c))
        as [[t' c'] r].
      unfold trace_of in *. simpl in *. rewrite Hl. simpl.
      rewrite bool_decide_true by done. by constructor.
    + rewrite (proxy_task_break _ _ _ _ _ _ _ _ Hb).
      unfold trace_of. simpl. apply sublist_nil_l.
    + rewrite (proxy_task_next _ _ _ _ _ _ _ _ Hb).
      specialize (IH (consume target c)).
      destruct (proxy_task source target rest name (consume target c))
        as [[t' c'] r].
      unfold trace_of in *. simpl in *. rewrite Hl. simpl.
      by constructor.
  - rewrite proxy_task_source_raises. unfold trace_of.
    destruct (is_ConnectionClosed e); simpl; apply sublist_nil_l.
Qed.

(** While every write succeeds, the writes are the re-encodings of the
    messages that parse. *)
Lemma sent_when_writes_succeed source target messages name c :
  Forall (fun o => o = Sent) (pending target c) ->
  sent_to target
    (trace_of (proxy_task source target (map Yield messages) name c)) =
    omap (fun m => dumps <$> loads m) messages.
Proof.
  revert c. induction messages as [|m messages IH]; intros c Hs; [done|].
  assert (Hs' : Forall (fun o => o = Sent) (pending target (consume target c))).
  { rewrite pending_consume. destruct (pending target c); [done|].
    by inversion Hs. }
  simpl map.
  destruct (relay_body_cases target m c)
    as [[Hl Hb]|(data & Hl & [Hb|[(e & He & _)|(e & He & _)]])].
  - rewrite (proxy_task_next _ _ _ _ _ _ _ _ Hb). specialize (IH c Hs).
    destruct (proxy_task source target (map Yield messages) name c)
      as [[t' c'] r].
    unfold trace_of in *. simpl in *. by rewrite Hl.
  - rewrite (proxy_task_next _ _ _ _ _ _ _ _ Hb).
    specialize (IH (consume target c) Hs').
    destruct (proxy_task source target (map Yield messages) name
                (consume target c)) as [[t' c'] r].
    unfold trace_of in *. simpl in *. rewrite Hl. simpl.
    rewrite bool_decide_true by done. by f_equal.
  - destruct (pending target c) as [|o os]; [done|].
    inversion Hs; subst. simplify_eq/=.
  - destruct (pending target c) as [|o os]; [done|].
    inversion Hs; subst. simplify_eq/=.
Qed.

(** X4: while the destination accepts every write, the relay reads every
    message of the source and writes, in order, the re-encoding of each one
    that parses; the ones that do not parse are left out and nothing else
    is lost. *)
Theorem relay_forwards_the_units_that_parse source target messages name c :
  Forall (fun o => o = Sent) (pending target c) ->
  received_from source
    (trace_of (proxy_task source target (map Yield messages) name c)) =
    messages /\
  sent_to target
    (trace_of (proxy_task source target (map Yield messages) name c)) =
    omap (fun m => dumps <$> loads m) messages.
Proof.
  intros Hs. split; [|by apply sent_when_writes_succeed].
  revert c Hs. induction messages as [|m messages IH]; intros c Hs; [done|].
  assert (Hs' : Forall (fun o => o = Sent) (pending target (consume target c))).
  { rewrite pending_consume. destruct (pending target c); [done|].
    by inversion Hs. }
  simpl map.
  destruct (relay_body_cases target m c)
    as [[Hl Hb]|(data & Hl & [Hb|[(e & He & _)|(e & He & _)]])].
  - rewrite (proxy_task_next _ _ _ _ _ _ _ _ Hb). specialize (IH c Hs).
    destruct (proxy_task source target (map Yield messages) name c)
      as [[t' c'] r].
    unfold trace_of in *. simpl in *.
    rewrite bool_decide_true by done. by f_equal.
  - rewrite (proxy_task_next _ _ _ _ _ _ _ _ Hb).
    specialize (IH (consume target c) Hs').
    destruct (proxy_task source target (map Yield messages) name
                (consume target c)) as [[t' c'] r].
    unfold trace_of in *. simpl in *.
    rewrite bool_decide_true by done. by f_equal.
  - destruct (pending target c) as [|o os]; [done|].
    inversion Hs; subst. simplify_eq/=.
  - destruct (pending target c) as [|o os]; [done|].
    inversion Hs; subst. simplify_eq/=.
Qed.

(** A relay leaves the pending writes of the other connection alone and
    writes nothing to it. *)
Lemma proxy_task_other source target other script name c :
  other <> target ->
  pending other (conn_of (proxy_task source target script name c)) =
    pending other c /\
  sent_to other (trace_of (proxy_task source target script name c)) = [].
Proof.
  intros Hne. revert c. induction script as [|[message|e] rest IH]; intros c.
  - done.
  - destruct (relay_body_cases target message c)
      as [[_ Hb]|(data & _ & [Hb|[(e & _ & _ & Hb)|(e & _ & _ & Hb)]])].
    + rewrite (proxy_task_next _ _ _ _ _ _ _ _ Hb). specialize (IH c).
      destruct (proxy_task source target rest name c) as [[t' c'] r].
      unfold trace_of, conn_of in *. simpl in *. done.
    + rewrite (proxy_task_next _ _ _ _ _ _ _ _ Hb).
      specialize (IH (consume target c)).
      rewrite pending_consume_other in IH by done.
      destruct (proxy_task source target rest name (consume target c))
        as [[t' c'] r].
      unfold trace_of, conn_of in *. simpl in *.
      rewrite bool_decide_false by done. done.
    + rewrite (proxy_task_break _ _ _ _ _ _ _ _ Hb).
      unfold trace_of, conn_of. simpl.
      by rewrite pending_consume_other.
    + rewrite (proxy_task_next _ _ _ _ _ _ _ _ Hb).
      specialize (IH (consume target c)).
      rewrite pending_consume_other in IH by done.
      destruct (proxy_task source target rest name (consume target c))
        as [[t' c'] r].
      unfold trace_of, conn_of in *. simpl in *. done.
  - rewrite proxy_task_source_raises. unfold trace_of, conn_of.
    by destruct (is_ConnectionClosed e).
Qed.

(** A relay reads from its source only. *)
Lemma proxy_task_received_other source target other script name c :
  other <> source ->
  received_from other
    (trace_of (proxy_task source target script name c)) = [].
Proof.
  intros Hne. revert c. induction script as [|[message|e] rest IH]; intros c.
  - done.
  - destruct (relay_body_cases target message c)
      as [[_ Hb]|(data & _ & [Hb|[(e & _ & _ & Hb)|(e & _ & _ & Hb)]])].
    + rewrite (proxy_task_next _ _ _ _ _ _ _ _ Hb). specialize (IH c).
      destruct (proxy_task source target rest name c) as [[t' c'] r].
      unfold trace_of in *. simpl in *. by rewrite bool_decide_false.
    + rewrite (proxy_task_next _ _ _ _ _ _ _ _ Hb).
      specialize (IH (consume target c)).
      destruct (proxy_task source target rest name (consume target c))
        as [[t' c'] r].
      unfold trace_of in *. simpl in *. by rewrite bool_decide_false.
    + rewrite (proxy_task_break _ _ _ _ _ _ _ _ Hb).
      unfold trace_of. simpl. by rewrite bool_decide_false.
    + rewrite (proxy_task_next _ _ _ _ _ _ _ _ Hb).
      specialize (IH (consume target c)).
      destruct (proxy_task source target rest name (consume target c))
        as [[t' c'] r].
      unfold trace_of in *. simpl in *. by rewrite bool_decide_false.
  - rewrite proxy_task_source_raises. unfold trace_of.
    by destruct (is_ConnectionClosed e).
Qed.

(** X6: a relay works on its own two ends only: it writes nothing to a
    connection other than its target and leaves what that connection will
    do with later writes untouched, and it reads from no connection other
    than its source. *)
Theorem relay_touches_only_its_ends source target other script name c :
  (other <> target ->
   pending other (conn_of (proxy_task source target script name c)) =
     pending other c /\
   sent_to other (trace_of (proxy_task source target script name c)) = []) /\
  (other <> source ->
   received_from other
     (trace_of (proxy_task source target script name c)) = []).
Proof.
  split; [by apply proxy_task_other|].
  by apply proxy_task_received_other.
Qed.

(** X7: the relay reads its source in order and without gaps: what it has
    read is always a prefix of the messages the source holds. *)
Theorem relay_reads_a_prefix source target script name c :
  received_from source (trace_of (proxy_task source target script name c))
    `prefix_of` messages_of script.
Proof.
  revert c. induction script as [|[message|e] rest IH]; intros c.
  - done.
  - destruct (relay_body_cases target message c)
      as [[_ Hb]|(data & _ & [Hb|[(e & _ & _ & Hb)|(e & _ & _ & Hb)]])].
    + rewrite (proxy_task_next _ _ _ _ _ _ _ _ Hb). specialize (IH c).
      destruct (proxy_task source target rest name c) as [[t' c'] r].
      unfold trace_of in *. simpl in *.
      rewrite bool_decide_true by done. by apply prefix_cons.
    + rewrite (proxy_task_next _ _ _ _ _ _ _ _ Hb).
      specialize (IH (consume target c)).
      destruct (proxy_task source target rest name (consume target c))
        as [[t' c'] r].
      unfold trace_of in *. simpl in *.
      rewrite bool_decide_true by done. by apply prefix_cons.
    + rewrite (proxy_task_break _ _ _ _ _ _ _ _ Hb).
      unfold trace_of. simpl. rewrite bool_decide_true by done.
      apply prefix_cons, prefix_nil.
    + rewrite (proxy_task_next _ _ _ _ _ _ _ _ Hb).
      specialize (IH (consume target c)).
      destruct (proxy_task source target rest name (consume target c))
        as [[t' c'] r].
      unfold trace_of in *. simpl in *.
      rewrite bool_decide_true by done. by apply prefix_cons.
  - rewrite proxy_task_source_raises. unfold trace_of.
    destruct (is_ConnectionClosed e); apply prefix_nil.
Qed.

(** X8: relaying is idempotent.  When what one relay has written is relayed
    once more (both destinations accepting every write), the second relay
    writes the same payloads again, unchanged: the re-encoding is a
    normal form, for documents that the JSON library writes and reads back
    unchanged. *)
Theorem relay_of_relayed_units_is_unchanged
    source target source' target' messages name name' c c' :
  (forall m data, m ∈ messages -> loads m = Some data ->
                  loads (dumps data) = Some data) ->
  Forall (fun o => o = Sent) (pending target c) ->
  Forall (fun o => o = Sent) (pending target' c') ->
  sent_to target'
    (trace_of
       (proxy_task source' target'
          (map Yield
             (sent_to target
                (trace_of
                   (proxy_task source target (map Yield messages) name c))))
          name' c')) =
  sent_to target
    (trace_of (proxy_task source target (map Yield messages) name c)).
Proof.
  intros Hrt Hs Hs'. rewrite !sent_when_writes_succeed by done. clear Hs Hs'.
  induction messages as [|m messages IH]; [done|].
  assert (IH' : omap (fun m => dumps <$> loads m)
                  (omap (fun m => dumps <$> loads m) messages) =
                omap (fun m => dumps <$> loads m) messages).
  { apply IH. intros m' data' Hin. apply Hrt. by right. }
  simpl. destruct (loads m) as [data|] eqn:Hl; simpl; [|done].
  rewrite (Hrt m data); [|by left|done]. simpl. f_equal. exact IH'.
Qed.

(** * Further properties of the orchestrator and of the gatekeeper *)

Lemma omap_interleaving_left {A B} (f : A -> option B) (l1 l2 l : list A) :
  interleaving l1 l2 l -> omap f l2 = [] -> omap f l = omap f l1.
Proof.
  induction 1 as [|x l1 l2 l _ IH|x l1 l2 l _ IH]; intros Hnil; [done| |].
  - simpl. destruct (f x); [f_equal|]; by apply IH.
  - simpl in *. destruct (f x); [done|]. by apply IH.
Qed.

Lemma omap_interleaving_right {A B} (f : A -> option B) (l1 l2 l : list A) :
  interleaving l1 l2 l -> omap f l1 = [] -> omap f l = omap f l2.
Proof.
  induction 1 as [|x l1 l2 l _ IH|x l1 l2 l _ IH]; intros Hnil; [done| |].
  - simpl in *. destruct (f x); [done|]. by apply IH.
  - simpl. destruct (f x); [f_equal|]; by apply IH.
Qed.

Lemma dials_nil t :
  (forall url headers, ~ In (Connect url headers) t) -> dials t = [].
Proof.
  induction t as [|ev t IH]; intros Hno; [done|].
  destruct ev; simpl; try (apply IH; intros ? ? ?; eapply Hno; by right).
  exfalso. eapply Hno. by left.
Qed.

Lemma closes_nil t :
  (forall code reason, ~ In (Close code reason) t) -> closes t = [].
Proof.
  induction t as [|ev t IH]; intros Hno; [done|].
  destruct ev; simpl; try (apply IH; intros ? ? ?; eapply Hno; by right).
  exfalso. eapply Hno. by left.
Qed.

(** X9: what each connection is sent and what is read from it during a
    session does not depend on how the event loop interleaves the two
    relays: it is what the relay of that direction writes and reads when it
    runs alone. *)
Theorem session_traffic_is_schedule_independent w bearer_token c :
  dial w = DialOk ->
  sent_to Upstream (trace_of (create_proxy w bearer_token c)) =
    sent_to Upstream
      (trace_of (proxy_task Client Upstream (client_messages w)
                   "Client->Server" c)) /\
  sent_to Client (trace_of (create_proxy w bearer_token c)) =
    sent_to Client
      (trace_of (proxy_task Upstream Client (upstream_messages w)
                   "Server->Client" c)) /\
  received_from Client (trace_of (create_proxy w bearer_token c)) =
    received_from Client
      (trace_of (proxy_task Client Upstream (client_messages w)
                   "Client->Server" c)) /\
  received_from Upstream (trace_of (create_proxy w bearer_token c)) =
    received_from Upstream
      (trace_of (proxy_task Upstream Client (upstream_messages w)
                   "Server->Client" c)).
Proof.
  intros Hd.
  destruct (create_proxy_connected w bearer_token c Hd)
    as (body & c' & -> & Hil).
  unfold trace_of at 1 3 5 7. simpl.
  unfold sent_to, received_from. rewrite !omap_app. simpl.
  rewrite !app_nil_r.
  repeat split.
  - rewrite (omap_interleaving_left _ _ _ _ Hil).
    + rewrite omap_app. simpl. by rewrite app_nil_r.
    + rewrite omap_app. simpl. rewrite app_nil_r.
      by apply (proxy_task_other Upstream Client Upstream).
  - rewrite (omap_interleaving_right _ _ _ _ Hil).
    + rewrite omap_app. simpl. by rewrite app_nil_r.
    + rewrite omap_app. simpl. rewrite app_nil_r.
      by apply (proxy_task_other Client Upstream Client).
  - rewrite (omap_interleaving_left _ _ _ _ Hil).
    + rewrite omap_app. simpl. by rewrite app_nil_r.
    + rewrite omap_app. simpl. rewrite app_nil_r.
      by apply (proxy_task_received_other Upstream Client Client).
  - rewrite (omap_interleaving_right _ _ _ _ Hil).
    + rewrite omap_app. simpl. by rewrite app_nil_r.
    + rewrite omap_app. simpl. rewrite app_nil_r.
      by apply (proxy_task_received_other Client Upstream Upstream).
Qed.

(** X10: when the dial of the upstream endpoint fails, the orchestrator
    logs the failure (message, type and cause) and returns normally without
    relaying anything: nothing is read, nothing is written, the client
    connection is not closed and the connections are left as they were. *)
Theorem failed_dial_is_logged_and_nothing_is_relayed w bearer_token c e :
  dial w = DialFail e ->
  create_proxy w bearer_token c =
    ([ Connect SERVICE_URL (upstream_headers bearer_token);
       LogExn "Proxy connection error: " e;
       LogType "Error type: " e;
       LogCause "Caused by: " e ], c, Val tt) /\
  (forall r, received_from r (trace_of (create_proxy w bearer_token c)) = [] /\
             sent_to r (trace_of (create_proxy w bearer_token c)) = []) /\
  closes (trace_of (create_proxy w bearer_token c)) = [] /\
  ~ In Opened (trace_of (create_proxy w bearer_token c)).
Proof.
  intros Hd. rewrite (create_proxy_dial_failed w bearer_token c e Hd).
  unfold trace_of. simpl. repeat split; try done. intuition congruence.
Qed.

(** X11: in every world the orchestrator dials exactly once, the fixed
    endpoint with the headers built from the token, and never closes the
    client connection: closing it is left to its caller. *)
Theorem orchestrator_dials_once_and_never_closes_client w bearer_token c :
  dials (trace_of (create_proxy w bearer_token c)) =
    [(SERVICE_URL, upstream_headers bearer_token)] /\
  closes (trace_of (create_proxy w bearer_token c)) = [].
Proof.
  destruct (create_proxy_shape w bearer_token c) as (t & c' & -> & Hd & Hc).
  unfold trace_of. simpl. by rewrite (dials_nil t Hd), (closes_nil t Hc).
Qed.

(** X12: every run of the gatekeeper returns normally and does one of two
    things: it starts a session (one dial, and then it does not close the
    client connection itself), or it starts none and closes the client
    connection exactly once, with 1008 "Bearer token missing" or with 1011
    "Internal error". *)
Theorem gatekeeper_dials_or_closes w c :
  result_of (handle_client w c) = Val tt /\
  ((exists bearer_token,
      dials (trace_of (handle_client w c)) =
        [(SERVICE_URL, upstream_headers bearer_token)] /\
      closes (trace_of (handle_client w c)) = []) \/
   (dials (trace_of (handle_client w c)) = [] /\
    (closes (trace_of (handle_client w c)) = [(1008%Z, "Bearer token missing")] \/
     closes (trace_of (handle_client w c)) = [(1011%Z, "Internal error")]))).
Proof.
  destruct (first w) as [delay message| |e] eqn:Hf.
  - destruct (Qle_bool delay AUTH_TIMEOUT) eqn:Ht.
    + destruct (loads message) as [data|] eqn:Hl.
      * rewrite (handle_client_decoded w c delay message _ Hf Ht Hl).
        destruct data as [| | | |s|xs|fields];
          try (unfold result_of, trace_of; simpl; tauto).
        -- destruct (str_contains "bearer_token" s);
             unfold result_of, trace_of; simpl; tauto.
        -- destruct (list_contains_str "bearer_token" xs);
             unfold result_of, trace_of; simpl; tauto.
        -- destruct (fields !! "bearer_token") as [token|] eqn:Hk;
             [|unfold result_of, trace_of; simpl; tauto].
           destruct (create_proxy_shape w token c)
             as (t & c' & -> & Hd & Hc).
           unfold result_of, trace_of. simpl.
           split; [done|]. left. exists token.
           by rewrite (dials_nil t Hd), (closes_nil t Hc).
      * rewrite (handle_client_undecodable w c delay message Hf Ht Hl).
        unfold result_of, trace_of; simpl; tauto.
    + rewrite handle_client_timeout by (by rewrite Hf).
      unfold result_of, trace_of; simpl; tauto.
  - rewrite handle_client_timeout by (by rewrite Hf).
    unfold result_of, trace_of; simpl; tauto.
  - rewrite (handle_client_recv_raises w c e Hf).
    unfold result_of, trace_of; simpl; tauto.
Qed.

(** X13: when the token is there but the dial of the upstream endpoint
    fails, the gatekeeper ends after the orchestrator's log lines: the
    client connection is not closed by the program (no 1011 is sent) and
    nothing is relayed. *)
Theorem gatekeeper_leaves_client_open_when_dial_fails
    w c delay message fields bearer_token e :
  first w = Arrives delay message ->
  (delay <= 5)%Q ->
  loads message = Some (JObj fields) ->
  fields !! "bearer_token" = Some bearer_token ->
  dial w = DialFail e ->
  handle_client w c =
    ([ Log "New connection..."; Recv Client message;
       Connect SERVICE_URL (upstream_headers bearer_token);
       LogExn "Proxy connection error: " e;
       LogType "Error type: " e;
       LogCause "Caused by: " e ], c, Val tt).
Proof.
  intros Hf Ht Hl Hk Hd. apply in_time_iff in Ht.
  rewrite (handle_client_decoded w c delay message _ Hf Ht Hl), Hk.
  by rewrite (create_proxy_dial_failed w bearer_token c e Hd).
Qed.

(** What a session writes to each connection, whatever the schedule. *)
Lemma create_proxy_sent w bearer_token c :
  dial w = DialOk ->
  sent_to Upstream (trace_of (create_proxy w bearer_token c)) =
    sent_to Upstream
      (trace_of (proxy_task Client Upstream (client_messages w)
                   "Client->Server" c)) /\
  sent_to Client (trace_of (create_proxy w bearer_token c)) =
    sent_to Client
      (trace_of (proxy_task Upstream Client (upstream_messages w)
                   "Server->Client" c)).
Proof.
  intros Hd.
  destruct (create_proxy_connected w bearer_token c Hd)
    as (body & c' & -> & Hil).
  unfold trace_of at 1 3. simpl.
  unfold sent_to. rewrite !omap_app. simpl. rewrite !app_nil_r.
  split.
  - rewrite (omap_interleaving_left _ _ _ _ Hil).
    + rewrite omap_app. simpl. by rewrite app_nil_r.
    + rewrite omap_app. simpl. rewrite app_nil_r.
      by apply (proxy_task_other Upstream Client Upstream).
  - rewrite (omap_interleaving_right _ _ _ _ Hil).
    + rewrite omap_app. simpl. by rewrite app_nil_r.
    + rewrite omap_app. simpl. rewrite app_nil_r.
      by apply (proxy_task_other Client Upstream Client).
Qed.

(** X14: end to end.  After a first message with a token and a successful
    dial, while both connections accept every write, the upstream receives
    exactly the re-encodings of the client's units that parse, and the
    client those of the upstream's, each in order, whatever the schedule;
    the gatekeeper's own first message is not forwarded. *)
Theorem session_forwards_both_directions
    w c delay message fields bearer_token from_client from_upstream :
  first w = Arrives delay message ->
  (delay <= 5)%Q ->
  loads message = Some (JObj fields) ->
  fields !! "bearer_token" = Some bearer_token ->
  dial w = DialOk ->
  client_messages w = map Yield from_client ->
  upstream_messages w = map Yield from_upstream ->
  Forall (fun o => o = Sent) (to_client c) ->
  Forall (fun o => o = Sent) (to_upstream c) ->
  sent_to Upstream (trace_of (handle_client w c)) =
    omap (fun m => dumps <$> loads m) from_client /\
  sent_to Client (trace_of (handle_client w c)) =
    omap (fun m => dumps <$> loads m) from_upstream.
Proof.
  intros Hf Ht Hl Hk Hd Hc Hu Hsc Hsu. apply in_time_iff in Ht.
  rewrite (handle_client_decoded w c delay message _ Hf Ht Hl), Hk.
  destruct (create_proxy_sent w bearer_token c Hd) as [Hup Hcl].
  rewrite Hc, Hu in *.
  rewrite (sent_when_writes_succeed Client Upstream) in Hup by done.
  rewrite (sent_when_writes_succeed Upstream Client) in Hcl by done.
  destruct (create_proxy w bearer_token c) as [[t c'] r].
  unfold trace_of in *. simpl in *. by split.
Qed.

End Proxy.

(** * The properties on the concrete session *)

Lemma handle_client_dials_with_bearer_token_witness :
  first (Scenario.session Scenario.auth_message) =
    Arrives 1 Scenario.auth_message /\
  (1 <= 5)%Q /\
  MiniJson.loads Scenario.auth_message =
    Some (JObj {[ "bearer_token" := JStr "abc123" ]}) /\
  exists rest,
    trace_of (handle_client MiniJson.loads MiniJson.dumps Scenario.show
                (Scenario.session Scenario.auth_message) Scenario.healthy) =
      Log "New connection..." :: Recv Client Scenario.auth_message ::
      Connect SERVICE_URL
        [ ("Content-Type", "application/json");
          ("Authorization", "Bearer abc123") ] :: rest.
Proof.
  split; [reflexivity|]. split; [by vm_compute|].
  split; [by vm_compute|].
  destruct (handle_client_dials_with_bearer_token
              MiniJson.loads MiniJson.dumps Scenario.show
              (Scenario.session Scenario.auth_message) Scenario.healthy
              1 Scenario.auth_message
              {[ "bearer_token" := JStr "abc123" ]} (JStr "abc123"))
    as (rest & Hrun & _); [reflexivity|by vm_compute|by vm_compute|by vm_compute|].
  exists rest. exact Hrun.
Defined.

Lemma relay_preserves_documents_witness :
  Forall (fun m => is_Some (MiniJson.loads m))
    [Scenario.client_unit; Scenario.number_message] /\
  Forall (fun o => o = Sent) (pending Upstream Scenario.healthy) /\
  length
    (sent_to Upstream
       (trace_of (proxy_task MiniJson.loads MiniJson.dumps Client Upstream
                    (map Yield [Scenario.client_unit; Scenario.number_message])
                    "Client->Server" Scenario.healthy))) = 2 /\
  Forall2 (fun m received => MiniJson.loads received = MiniJson.loads m)
    [Scenario.client_unit; Scenario.number_message]
    (sent_to Upstream
       (trace_of (proxy_task MiniJson.loads MiniJson.dumps Client Upstream
                    (map Yield [Scenario.client_unit; Scenario.number_message])
                    "Client->Server" Scenario.healthy))).
Proof.
  assert (Hparse : Forall (fun m => is_Some (MiniJson.loads m))
                     [Scenario.client_unit; Scenario.number_message]).
  { repeat constructor; vm_compute; eauto. }
  assert (Hsent : Forall (fun o => o = Sent) (pending Upstream Scenario.healthy)).
  { constructor. }
  split; [exact Hparse|]. split; [exact Hsent|].
  destruct (relay_preserves_documents MiniJson.loads MiniJson.dumps
              Client Upstream [Scenario.client_unit; Scenario.number_message]
              "Client->Server" Scenario.healthy Hparse Hsent)
    as (Hlen & _ & Hrt).
  split; [exact Hlen|]. apply Hrt.
  intros m data Hin Hm.
  apply elem_of_cons in Hin as [->|Hin];
    [|apply elem_of_cons in Hin as [->|Hin]; [|by apply elem_of_nil in Hin]].
  - vm_compute in Hm. injection Hm as <-. by vm_compute.
  - vm_compute in Hm. injection Hm as <-. by vm_compute.
Defined.

(** C2 as the specification states it fails: two units are read and both
    parse, the write of the first fails with an error that is not a closed
    connection, and the destination receives one message only. *)
Lemma unit_is_lost_when_its_write_fails :
  Forall (fun m => is_Some (MiniJson.loads m))
    [Scenario.number_message; Scenario.client_unit] /\
  received_from Client
    (trace_of (proxy_task MiniJson.loads MiniJson.dumps Client Upstream
                 (map Yield [Scenario.number_message; Scenario.client_unit])
                 "Client->Server" Scenario.flaky)) =
    [Scenario.number_message; Scenario.client_unit] /\
  sent_to Upstream
    (trace_of (proxy_task MiniJson.loads MiniJson.dumps Client Upstream
                 (map Yield [Scenario.number_message; Scenario.client_unit])
                 "Client->Server" Scenario.flaky)) =
    [Scenario.client_unit] /\
  ~ Forall2 (fun m received => MiniJson.loads received = MiniJson.loads m)
      [Scenario.number_message; Scenario.client_unit]
      (sent_to Upstream
         (trace_of (proxy_task MiniJson.loads MiniJson.dumps Client Upstream
                      (map Yield [Scenario.number_message; Scenario.client_unit])
                      "Client->Server" Scenario.flaky))).
Proof.
  split; [repeat constructor; vm_compute; eauto|].
  split; [by vm_compute|]. split; [by vm_compute|].
  intros H. apply Forall2_length in H. vm_compute in H. discriminate.
Qed.

Lemma handle_client_refuses_missing_token_witness :
  MiniJson.loads Scenario.anonymous_message =
    Some (JObj {[ "user" := JStr "alice" ]}) /\
  handle_client MiniJson.loads MiniJson.dumps Scenario.show
    (Scenario.session Scenario.anonymous_message) Scenario.healthy =
    ([ Log "New connection..."; Recv Client Scenario.anonymous_message;
       Close 1008 "Bearer token missing" ], Scenario.healthy, Val tt).
Proof.
  split; [by vm_compute|].
  apply (handle_client_refuses_missing_token
           MiniJson.loads MiniJson.dumps Scenario.show
           (Scenario.session Scenario.anonymous_message) Scenario.healthy
           1 Scenario.anonymous_message {[ "user" := JStr "alice" ]});
    [reflexivity|by vm_compute|by vm_compute|by vm_compute].
Defined.

Lemma handle_client_internal_error_witness :
  MiniJson.loads Scenario.garbage_message = None /\
  exists received e,
    handle_client MiniJson.loads MiniJson.dumps Scenario.show
      (Scenario.session Scenario.garbage_message) Scenario.healthy =
      (Log "New connection..." ::
       received ++ [LogExn "Error: " e; Close 1011 "Internal error"],
       Scenario.healthy, Val tt).
Proof.
  split; [by vm_compute|].
  destruct (handle_client_internal_error
              MiniJson.loads MiniJson.dumps Scenario.show
              (Scenario.session Scenario.garbage_message) Scenario.healthy)
    as (received & e & Hrun & _); [right; by vm_compute|].
  exists received, e. exact Hrun.
Defined.



Lemma undecodable_unit_is_skipped_witness :
  MiniJson.loads Scenario.garbage_message = None /\
  proxy_task MiniJson.loads MiniJson.dumps Client Upstream
    [Yield Scenario.garbage_message; Yield Scenario.client_unit]
    "Client->Server" Scenario.healthy =
    (let '(t, c', r) :=
       proxy_task MiniJson.loads MiniJson.dumps Client Upstream
         [Yield Scenario.client_unit] "Client->Server" Scenario.healthy in
     (Recv Client Scenario.garbage_message ::
      LogExn "Error: " JSONDecodeError :: t, c', r)).
Proof.
  split; [by vm_compute|].
  apply (undecodable_unit_is_skipped MiniJson.loads MiniJson.dumps
           Client Upstream Scenario.garbage_message
           [Yield Scenario.client_unit] "Client->Server" Scenario.healthy).
  by vm_compute.
Defined.

Lemma write_error_is_logged_and_relay_goes_on_witness :
  MiniJson.loads Scenario.number_message = Some (JInt 42) /\
  head (pending Upstream Scenario.flaky) =
    Some (SendFail (OtherError "write failed")) /\
  proxy_task MiniJson.loads MiniJson.dumps Client Upstream
    [Yield Scenario.number_message; Yield Scenario.client_unit]
    "Client->Server" Scenario.flaky =
    (let '(t, c', r) :=
       proxy_task MiniJson.loads MiniJson.dumps Client Upstream
         [Yield Scenario.client_unit] "Client->Server"
         (consume Upstream Scenario.flaky) in
     (Recv Client Scenario.number_message ::
      LogExn "Error: " (OtherError "write failed") :: t, c', r)).
Proof.
  split; [by vm_compute|]. split; [reflexivity|].
  apply (write_error_is_logged_and_relay_goes_on MiniJson.loads MiniJson.dumps
           Client Upstream Scenario.number_message (JInt 42)
           (OtherError "write failed") [Yield Scenario.client_unit]
           "Client->Server" Scenario.flaky);
    [by vm_compute|reflexivity|reflexivity].
Defined.

(** C6 as the specification states it fails: the write of the first unit
    fails with an error that is not a closed connection, and the relay does
    not stop: it reads the second unit and writes it. *)
Lemma relay_does_not_stop_on_write_error :
  MiniJson.loads Scenario.number_message = Some (JInt 42) /\
  head (pending Upstream Scenario.flaky) =
    Some (SendFail (OtherError "write failed")) /\
  is_ConnectionClosed (OtherError "write failed") = false /\
  proxy_task MiniJson.loads MiniJson.dumps Client Upstream
    [Yield Scenario.number_message; Yield Scenario.client_unit]
    "Client->Server" Scenario.flaky =
    ([ Recv Client Scenario.number_message;
       LogExn "Error: " (OtherError "write failed");
       Recv Client Scenario.client_unit;
       Send Upstream Scenario.client_unit ], Scenario.healthy, Val tt).
Proof. repeat split; by vm_compute. Qed.

Lemma upstream_dialled_after_first_message_witness :
  exists pre post delay message data,
    trace_of (handle_client MiniJson.loads MiniJson.dumps Scenario.show
                (Scenario.session Scenario.auth_message) Scenario.healthy) =
      pre ++ Connect SERVICE_URL
               [ ("Content-Type", "application/json");
                 ("Authorization", "Bearer abc123") ] :: post /\
    first (Scenario.session Scenario.auth_message) = Arrives delay message /\
    MiniJson.loads message = Some data /\
    In (Recv Client message) pre.
Proof.
  assert (Htrace :
    exists post,
      trace_of (handle_client MiniJson.loads MiniJson.dumps Scenario.show
                  (Scenario.session Scenario.auth_message) Scenario.healthy) =
        [Log "New connection..."; Recv Client Scenario.auth_message] ++
        Connect SERVICE_URL
          [ ("Content-Type", "application/json");
            ("Authorization", "Bearer abc123") ] :: post).
  { eexists. vm_compute. reflexivity. }
  destruct Htrace as (post & Htrace).
  destruct (upstream_dialled_after_first_message
              MiniJson.loads MiniJson.dumps Scenario.show
              (Scenario.session Scenario.auth_message) Scenario.healthy
              _ _ _ _ Htrace)
    as (delay & message & data & Hf & _ & Hl & Hin).
  by exists [Log "New connection..."; Recv Client Scenario.auth_message],
    post, delay, message, data.
Defined.

Lemma handle_client_on_other_documents_witness :
  MiniJson.loads Scenario.number_message = Some (JInt 42) /\
  handle_client MiniJson.loads MiniJson.dumps Scenario.show
    (Scenario.session Scenario.number_message) Scenario.healthy =
    ([ Log "New connection..."; Recv Client Scenario.number_message;
       LogExn "Error: " TypeError; Close 1011 "Internal error" ],
     Scenario.healthy, Val tt).
Proof.
  split; [by vm_compute|].
  apply (handle_client_on_other_documents
           MiniJson.loads MiniJson.dumps Scenario.show
           (Scenario.session Scenario.number_message) Scenario.healthy
           1 Scenario.number_message (JInt 42));
    [reflexivity|by vm_compute|by vm_compute|done].
Defined.

(** C10 as stated fails: the first message [[]] decodes to an array, which
    is not an object; the membership test answers no, and the connection is
    closed with code 1008, not 1011. *)
Lemma array_without_token_is_refused_with_1008 :
  MiniJson.loads Scenario.array_message = Some (JArr []) /\
  handle_client MiniJson.loads MiniJson.dumps Scenario.show
    (Scenario.session Scenario.array_message) Scenario.healthy =
    ([ Log "New connection..."; Recv Client Scenario.array_message;
       Close 1008 "Bearer token missing" ], Scenario.healthy, Val tt) /\
  ~ In (Close 1011 "Internal error")
      (trace_of (handle_client MiniJson.loads MiniJson.dumps Scenario.show
                   (Scenario.session Scenario.array_message) Scenario.healthy)).
Proof.
  split; [by vm_compute|]. split; [by vm_compute|].
  vm_compute. intuition congruence.
Qed.

(** The whole scenario, run: authentication, dial, one unit each way, both
    relays return, the upstream connection is released. *)
Example scenario_run :
  handle_client MiniJson.loads MiniJson.dumps Scenario.show
    (Scenario.session Scenario.auth_message) Scenario.healthy =
    ([ Log "New connection...";
       Recv Client Scenario.auth_message;
       Connect SERVICE_URL
         [ ("Content-Type", "application/json");
           ("Authorization", "Bearer abc123") ];
       Opened;
       Recv Client Scenario.client_unit;
       Recv Upstream Scenario.upstream_unit;
       Send Upstream Scenario.client_unit;
       TaskDone Client;
       Send Client Scenario.upstream_unit;
       TaskDone Upstream;
       Release ], Scenario.healthy, Val tt).
Proof. by vm_compute. Qed.

(** * The further properties on concrete sessions *)

Lemma closed_destination_stops_relay_witness :
  MiniJson.loads Scenario.number_message = Some (JInt 42) /\
  head (pending Upstream Outage.closed_upstream) =
    Some (SendFail ConnectionClosed) /\
  proxy_task MiniJson.loads MiniJson.dumps Client Upstream
    [Yield Scenario.number_message; Yield Scenario.client_unit]
    "Client->Server" Outage.closed_upstream =
    ([Recv Client Scenario.number_message], Scenario.healthy, Val tt).
Proof.
  split; [by vm_compute|]. split; [reflexivity|].
  apply (closed_destination_stops_relay MiniJson.loads MiniJson.dumps
           Client Upstream Scenario.number_message (JInt 42) ConnectionClosed
           [Yield Scenario.client_unit] "Client->Server"
           Outage.closed_upstream);
    [by vm_compute|reflexivity|reflexivity].
Defined.

Lemma relay_forwards_the_units_that_parse_witness :
  Forall (fun o => o = Sent) (pending Upstream Scenario.healthy) /\
  received_from Client
    (trace_of (proxy_task MiniJson.loads MiniJson.dumps Client Upstream
                 (map Yield [Scenario.garbage_message; Scenario.client_unit])
                 "Client->Server" Scenario.healthy)) =
    [Scenario.garbage_message; Scenario.client_unit] /\
  sent_to Upstream
    (trace_of (proxy_task MiniJson.loads MiniJson.dumps Client Upstream
                 (map Yield [Scenario.garbage_message; Scenario.client_unit])
                 "Client->Server" Scenario.healthy)) =
    omap (fun m => MiniJson.dumps <$> MiniJson.loads m)
      [Scenario.garbage_message; Scenario.client_unit].
Proof.
  assert (Hsent : Forall (fun o => o = Sent) (pending Upstream Scenario.healthy)).
  { constructor. }
  split; [exact Hsent|].
  exact (relay_forwards_the_units_that_parse MiniJson.loads MiniJson.dumps
           Client Upstream [Scenario.garbage_message; Scenario.client_unit]
           "Client->Server" Scenario.healthy Hsent).
Defined.

Lemma relay_of_relayed_units_is_unchanged_witness :
  sent_to Client
    (trace_of
       (proxy_task MiniJson.loads MiniJson.dumps Upstream Client
          (map Yield
             (sent_to Upstream
                (trace_of
                   (proxy_task MiniJson.loads MiniJson.dumps Client Upstream
                      (map Yield [Scenario.client_unit; Scenario.array_message])
                      "Client->Server" Scenario.healthy))))
          "Server->Client" Scenario.healthy)) =
  sent_to Upstream
    (trace_of
       (proxy_task MiniJson.loads MiniJson.dumps Client Upstream
          (map Yield [Scenario.client_unit; Scenario.array_message])
          "Client->Server" Scenario.healthy)).
Proof.
  apply (relay_of_relayed_units_is_unchanged MiniJson.loads MiniJson.dumps
           Client Upstream Upstream Client
           [Scenario.client_unit; Scenario.array_message]
           "Client->Server" "Server->Client"
           Scenario.healthy Scenario.healthy).
  - intros m data Hin Hm.
    apply elem_of_cons in Hin as [->|Hin];
      [|apply elem_of_cons in Hin as [->|Hin]; [|by apply elem_of_nil in Hin]].
    + vm_compute in Hm. injection Hm as <-. by vm_compute.
    + vm_compute in Hm. injection Hm as <-. by vm_compute.
  - constructor.
  - constructor.
Defined.

Lemma session_traffic_is_schedule_independent_witness :
  dial (Scenario.session Scenario.auth_message) = DialOk /\
  sent_to Upstream
    (trace_of (create_proxy MiniJson.loads MiniJson.dumps Scenario.show
                 (Scenario.session Scenario.auth_message) (JStr "abc123")
                 Scenario.healthy)) =
    sent_to Upstream
      (trace_of (proxy_task MiniJson.loads MiniJson.dumps Client Upstream
                   [Yield Scenario.client_unit] "Client->Server"
                   Scenario.healthy)).
Proof.
  split; [reflexivity|].
  apply (session_traffic_is_schedule_independent
           MiniJson.loads MiniJson.dumps Scenario.show
           (Scenario.session Scenario.auth_message) (JStr "abc123")
           Scenario.healthy eq_refl).
Defined.

Lemma failed_dial_is_logged_and_nothing_is_relayed_witness :
  dial (Outage.unreachable Scenario.auth_message) = DialFail OSError /\
  create_proxy MiniJson.loads MiniJson.dumps Scenario.show
    (Outage.unreachable Scenario.auth_message) (JStr "abc123")
    Scenario.healthy =
    ([ Connect SERVICE_URL
         [ ("Content-Type", "application/json");
           ("Authorization", "Bearer abc123") ];
       LogExn "Proxy connection error: " OSError;
       LogType "Error type: " OSError;
       LogCause "Caused by: " OSError ], Scenario.healthy, Val tt).
Proof.
  split; [reflexivity|].
  apply (failed_dial_is_logged_and_nothing_is_relayed
           MiniJson.loads MiniJson.dumps Scenario.show
           (Outage.unreachable Scenario.auth_message) (JStr "abc123")
           Scenario.healthy OSError eq_refl).
Defined.

Lemma gatekeeper_leaves_client_open_when_dial_fails_witness :
  MiniJson.loads Scenario.auth_message =
    Some (JObj {[ "bearer_token" := JStr "abc123" ]}) /\
  handle_client MiniJson.loads MiniJson.dumps Scenario.show
    (Outage.unreachable Scenario.auth_message) Scenario.healthy =
    ([ Log "New connection..."; Recv Client Scenario.auth_message;
       Connect SERVICE_URL
         [ ("Content-Type", "application/json");
           ("Authorization", "Bearer abc123") ];
       LogExn "Proxy connection error: " OSError;
       LogType "Error type: " OSError;
       LogCause "Caused by: " OSError ], Scenario.healthy, Val tt).
Proof.
  split; [by vm_compute|].
  apply (gatekeeper_leaves_client_open_when_dial_fails
           MiniJson.loads MiniJson.dumps Scenario.show
           (Outage.unreachable Scenario.auth_message) Scenario.healthy
           1 Scenario.auth_message
           {[ "bearer_token" := JStr "abc123" ]} (JStr "abc123") OSError);
    [reflexivity|by vm_compute|by vm_compute|by vm_compute|reflexivity].
Defined.

Lemma session_forwards_both_directions_witness :
  sent_to Upstream
    (trace_of (handle_client MiniJson.loads MiniJson.dumps Scenario.show
                 (Scenario.session Scenario.auth_message) Scenario.healthy)) =
    omap (fun m => MiniJson.dumps <$> MiniJson.loads m) [Scenario.client_unit] /\
  sent_to Client
    (trace_of (handle_client MiniJson.loads MiniJson.dumps Scenario.show
                 (Scenario.session Scenario.auth_message) Scenario.healthy)) =
    omap (fun m => MiniJson.dumps <$> MiniJson.loads m) [Scenario.upstream_unit].
Proof.
  apply (session_forwards_both_directions
           MiniJson.loads MiniJson.dumps Scenario.show
           (Scenario.session Scenario.auth_message) Scenario.healthy
           1 Scenario.auth_message
           {[ "bearer_token" := JStr "abc123" ]} (JStr "abc123")
           [Scenario.client_unit] [Scenario.upstream_unit]);
    [reflexivity|by vm_compute|by vm_compute|by vm_compute|reflexivity
    |reflexivity|reflexivity|constructor|constructor].
Defined.
